(** * AppImportExportService: export and import of an application graph

    A shallow embedding of the service class [AppImportExportService]
    ([export], [import] and their helpers) and a verification of its
    specification.

    Conventions of the embedding.
    - Identifiers (uuids in the source) are natural numbers; the store hands
      out fresh ones from one sequence shared by all tables.
    - The persistent store reached through TypeORM's [EntityManager] is a
      record of tables, each a list of rows in creation order, so that
      [orderBy created_at ASC] is the order of the list.  Database
      constraints (foreign keys, NOT NULL) are outside the embedding.
    - A JavaScript property that may be missing is an [option]; [None]
      stands for [undefined] (and for any other falsy value where the source
      only tests truthiness).
    - The old-id to new-id tables ([dataQueryMapping] and the like), plain
      JavaScript objects in the source, are [gmap Id Id].
    - [await] is sequencing; exceptions are the left summand of a sum.
    - Of the timestamps only those of a version are kept, [updatedAt] being
      the one the service writes again; [new Date()] reads a logical clock
      that advances with each version write. *)

From stdpp Require Import gmap strings list.
From Stdlib Require Import Lia.

Set Default Proof Using "Type".
Open Scope string_scope.
Open Scope list_scope.
Open Scope nat_scope.

Abbreviation Id := nat (only parsing).
Abbreviation Date := nat (only parsing).

(** ** Event bindings, query options and version definitions *)

Module Event.
(** One event binding; [rest] stands for its other properties (event id,
    action id, message, ...), which the service never reads. *)
Record t := mk { queryId : option Id; rest : string }.
End Event.

Module QueryOptions.
Record t := mk { events : option (list Event.t); rest : string }.
End QueryOptions.

Module Action.
(** An entry of [component.definition.properties.actions.value]. *)
Record t := mk { events : option (list Event.t); rest : string }.
End Action.

Module Column.
(** An entry of [component.definition.properties.columns.value]. *)
Record t := mk { events : option (list Event.t); rest : string }.
End Column.

Module Component.
(** [definition.components[id].component].  [component] is the widget
    kind (['Table'], ['Button'], ...); [events] is [definition.events];
    [actions] is [definition.properties.actions.value] and [columns] is
    [definition.properties.columns.value], each [None] when a link of the
    optional chain is missing. *)
Record t := mk {
  component : option string;
  events : option (list Event.t);
  actions : option (list Action.t);
  columns : option (list Column.t)
}.
End Component.

Module AppDefinition.
(** A version's definition: the [components] object, keyed by component
    id, in key order. *)
Record t := mk { components : option (list (string * Component.t)) }.
End AppDefinition.

(** Legacy inline options of a data source, [{key: {value, encrypted}}],
    and the option bag stored in a DataSourceOptions row. *)
Definition OptionsBag := list (string * (string * bool)).

Module KeyValuePair.
Record t := mk { key : string; value : string; encrypted : bool }.
End KeyValuePair.

(** ** Entities *)

Module User.
Record t := mk { id : Id; organizationId : Id }.
End User.

Module App.
Record t := mk {
  id : Id;
  name : option string;
  organizationId : Id;
  userId : Id;
  slug : option Id;
  isPublic : bool;
  currentVersionId : option Id
}.
Definition set_currentVersionId (v : option Id) (a : t) : t :=
  mk (id a) (name a) (organizationId a) (userId a) (slug a) (isPublic a) v.
Definition set_slug (v : option Id) (a : t) : t :=
  mk (id a) (name a) (organizationId a) (userId a) v (isPublic a)
     (currentVersionId a).
(** An entity given as the criteria of an update: a row is selected when
    every column has the value the entity holds in memory. *)
Definition matches (criteria row : t) : bool :=
  (id row =? id criteria)
  && bool_decide (name row = name criteria)
  && (organizationId row =? organizationId criteria)
  && (userId row =? userId criteria)
  && bool_decide (slug row = slug criteria)
  && Bool.eqb (isPublic row) (isPublic criteria)
  && bool_decide (currentVersionId row = currentVersionId criteria).
End App.

Module AppVersion.
Record t := mk {
  id : Id;
  appId : Id;
  definition : option AppDefinition.t;
  name : option string;
  createdAt : Date;
  updatedAt : Date
}.
Definition set_definition (d : option AppDefinition.t) (v : t) : t :=
  mk (id v) (appId v) d (name v) (createdAt v) (updatedAt v).
Definition set_updatedAt (d : Date) (v : t) : t :=
  mk (id v) (appId v) (definition v) (name v) (createdAt v) d.
End AppVersion.

Module AppEnvironment.
Record t := mk {
  id : Id;
  appVersionId : option Id;
  name : option string;
  isDefault : option bool
}.
End AppEnvironment.

Module DataSource.
Record t := mk {
  id : Id;
  name : option string;
  kind : option string;
  appVersionId : option Id
}.
End DataSource.

Module DataSourceOptions.
Record t := mk {
  id : Id;
  environmentId : option Id;
  dataSourceId : option Id;
  options : option OptionsBag
}.
End DataSourceOptions.

Module DataQuery.
Record t := mk {
  id : Id;
  name : option string;
  kind : option string;
  options : option QueryOptions.t;
  dataSourceId : option Id
}.
Definition set_options (o : option QueryOptions.t) (q : t) : t :=
  mk (id q) (name q) (kind q) o (dataSourceId q).
End DataQuery.

Module GroupPermission.
Record t := mk { id : Id; organizationId : Id; group : string }.
End GroupPermission.

Module AppGroupPermission.
Record t := mk {
  id : Id;
  groupPermissionId : Id;
  appId : Id;
  read : bool;
  update : bool;
  delete : bool
}.
End AppGroupPermission.

(** ** The snapshot document read by [import] *)

Module VersionParams.
Record t := mk {
  id : Id;
  name : option string;
  definition : option AppDefinition.t
}.
End VersionParams.

Module EnvironmentParams.
Record t := mk {
  id : Id;
  versionId : option Id;
  name : option string;
  isDefault : option bool
}.
End EnvironmentParams.

Module SourceParams.
Record t := mk {
  id : Id;
  name : option string;
  kind : option string;
  appVersionId : option Id;
  options : option OptionsBag
}.
End SourceParams.

Module SourceOptionsParams.
Record t := mk {
  environmentId : option Id;
  dataSource : option Id;
  options : option OptionsBag
}.
End SourceOptionsParams.

Module QueryParams.
Record t := mk {
  id : Id;
  name : option string;
  kind : option string;
  dataSourceId : option Id;
  options : option QueryOptions.t
}.
Definition set_options (o : option QueryOptions.t) (q : t) : t :=
  mk (id q) (name q) (kind q) (dataSourceId q) o.
End QueryParams.

Module AppParams.
Record t := mk {
  name : option string;
  currentVersionId : option Id;
  appVersions : option (list VersionParams.t);
  appEnvironments : option (list EnvironmentParams.t);
  dataSources : option (list SourceParams.t);
  dataSourceOptions : option (list SourceOptionsParams.t);
  dataQueries : option (list QueryParams.t)
}.
Definition empty : t := mk None None None None None None None.
End AppParams.

(** The argument of [import] has type [any]. *)
Inductive JsValue :=
| JsUndefined
| JsNull
| JsBoolean (b : bool)
| JsNumber (n : Z)
| JsString (s : string)
| JsObject (o : AppParams.t).

Definition typeof (v : JsValue) : string :=
  match v with
  | JsUndefined => "undefined"
  | JsNull => "object"
  | JsBoolean _ => "boolean"
  | JsNumber _ => "number"
  | JsString _ => "string"
  | JsObject _ => "object"
  end.

Inductive Exception :=
| BadRequestException (message : string)
| NotFoundException (message : string)
| EntityNotFoundError
| QueryFailedError
| TypeError.

(** ** The store behind the entity manager *)

Record Store := mkStore {
  apps : list App.t;
  app_versions : list AppVersion.t;
  app_environments : list AppEnvironment.t;
  data_sources : list DataSource.t;
  data_source_options : list DataSourceOptions.t;
  data_queries : list DataQuery.t;
  group_permissions : list GroupPermission.t;
  app_group_permissions : list AppGroupPermission.t;
  nextId : Id;
  clock : Date
}.

Definition emptyStore : Store := mkStore [] [] [] [] [] [] [] [] 0 0.

Definition with_apps (f : list App.t → list App.t) (s : Store) : Store :=
  mkStore (f (apps s)) (app_versions s) (app_environments s) (data_sources s)
    (data_source_options s) (data_queries s) (group_permissions s)
    (app_group_permissions s) (nextId s) (clock s).
Definition with_app_versions (f : list AppVersion.t → list AppVersion.t)
    (s : Store) : Store :=
  mkStore (apps s) (f (app_versions s)) (app_environments s) (data_sources s)
    (data_source_options s) (data_queries s) (group_permissions s)
    (app_group_permissions s) (nextId s) (clock s).
Definition with_app_environments
    (f : list AppEnvironment.t → list AppEnvironment.t) (s : Store) : Store :=
  mkStore (apps s) (app_versions s) (f (app_environments s)) (data_sources s)
    (data_source_options s) (data_queries s) (group_permissions s)
    (app_group_permissions s) (nextId s) (clock s).
Definition with_data_sources (f : list DataSource.t → list DataSource.t)
    (s : Store) : Store :=
  mkStore (apps s) (app_versions s) (app_environments s) (f (data_sources s))
    (data_source_options s) (data_queries s) (group_permissions s)
    (app_group_permissions s) (nextId s) (clock s).
Definition with_data_source_options
    (f : list DataSourceOptions.t → list DataSourceOptions.t) (s : Store)
    : Store :=
  mkStore (apps s) (app_versions s) (app_environments s) (data_sources s)
    (f (data_source_options s)) (data_queries s) (group_permissions s)
    (app_group_permissions s) (nextId s) (clock s).
Definition with_data_queries (f : list DataQuery.t → list DataQuery.t)
    (s : Store) : Store :=
  mkStore (apps s) (app_versions s) (app_environments s) (data_sources s)
    (data_source_options s) (f (data_queries s)) (group_permissions s)
    (app_group_permissions s) (nextId s) (clock s).
Definition with_app_group_permissions
    (f : list AppGroupPermission.t → list AppGroupPermission.t) (s : Store)
    : Store :=
  mkStore (apps s) (app_versions s) (app_environments s) (data_sources s)
    (data_source_options s) (data_queries s) (group_permissions s)
    (f (app_group_permissions s)) (nextId s) (clock s).

(** The id the store gives to the next inserted row. *)
Definition bumpId (s : Store) : Store :=
  mkStore (apps s) (app_versions s) (app_environments s) (data_sources s)
    (data_source_options s) (data_queries s) (group_permissions s)
    (app_group_permissions s) (S (nextId s)) (clock s).

(** [new Date()]: the store's logical clock, which then advances. *)
Definition tick (s : Store) : Store :=
  mkStore (apps s) (app_versions s) (app_environments s) (data_sources s)
    (data_source_options s) (data_queries s) (group_permissions s)
    (app_group_permissions s) (nextId s) (S (clock s)).

(** ** Remapping of event bindings *)

(** The arrow function passed to [events.map] at each of the four rewriting
    sites: [if (event.queryId) event.queryId = dataQueryMapping[event.queryId];
    return event].  A lookup that misses yields [undefined]. *)
Definition replaceEventQueryId (dataQueryMapping : gmap Id Id)
    (event : Event.t) : Event.t :=
  match Event.queryId event with
  | Some q => Event.mk (dataQueryMapping !! q) (Event.rest event)
  | None => event
  end.

Definition replaceDataQueryOptionsWithNewDataQueryIds
    (options : option QueryOptions.t) (dataQueryMapping : gmap Id Id)
    : option QueryOptions.t :=
  match options with
  | Some o =>
      match QueryOptions.events o with
      | Some events =>
          let replacedEvents := map (replaceEventQueryId dataQueryMapping) events in
          Some (QueryOptions.mk (Some replacedEvents) (QueryOptions.rest o))
      | None => options
      end
  | None => options
  end.

(** Body of the loop over [Object.keys(definition.components)]. *)
Definition replaceWithinComponent (dataQueryMapping : gmap Id Id)
    (component : Component.t) : Component.t :=
  let events :=
    match Component.events component with
    | Some events => Some (map (replaceEventQueryId dataQueryMapping) events)
    | None => None
    end in
  let actions :=
    match Component.actions component with
    | Some values =>
        Some (map (λ value,
          match Action.events value with
          | Some events =>
              Action.mk (Some (map (replaceEventQueryId dataQueryMapping) events))
                (Action.rest value)
          | None => value
          end) values)
    | None => None
    end in
  let columns :=
    if decide (Component.component component = Some "Table") then
      match Component.columns component with
      | Some values =>
          Some (map (λ column,
            match Column.events column with
            | Some events =>
                Column.mk (Some (map (replaceEventQueryId dataQueryMapping) events))
                  (Column.rest column)
            | None => column
            end) values)
      | None => None
      end
    else Component.columns component in
  Component.mk (Component.component component) events actions columns.

Definition replaceDataQueryIdWithinDefinitions
    (definition : option AppDefinition.t) (dataQueryMapping : gmap Id Id)
    : option AppDefinition.t :=
  match definition with
  | Some d =>
      match AppDefinition.components d with
      | Some components =>
          Some (AppDefinition.mk (Some
            (map (λ entry, (entry.1, replaceWithinComponent dataQueryMapping entry.2))
               components)))
      | None => definition
      end
  | None => definition
  end.

Definition convertToArrayOfKeyValuePairs (options : OptionsBag)
    : list KeyValuePair.t :=
  map (λ entry, KeyValuePair.mk entry.1 entry.2.1 entry.2.2) options.

(** [m[k]] where the key itself may be [undefined]: no id is ever stored
    under that key. *)
Definition lookupKey {V} (m : gmap Id V) (k : option Id) : option V :=
  match k with
  | Some k => m !! k
  | None => None
  end.

(** [UPDATE ... WHERE id = k]. *)
Definition updateWhereId {A} (getId : A → Id) (k : Id) (f : A → A)
    (rows : list A) : list A :=
  map (λ r, if getId r =? k then f r else r) rows.

(** [UPDATE ... WHERE] the criteria [p] hold. *)
Definition updateWhere {A} (p : A → bool) (f : A → A) (rows : list A)
    : list A :=
  map (λ r, if p r then f r else r) rows.

(** [findOne({ where: { id: k } })]. *)
Definition findById {A} (getId : A → Id) (k : Id) (rows : list A) : option A :=
  List.find (λ r, getId r =? k) rows.

(** ** The service *)

(** The injected collaborator [DataSourcesService]; only
    [parseOptionsForCreate] is used (with [isUpdate = false]). *)
Record DataSourcesService := {
  parseOptionsForCreate : list KeyValuePair.t → OptionsBag
}.

(** The locals of [buildImportedAppAssociations].  [dataQueries] is the
    input's query list: [manager.create] stores [query.options] in the new
    entity by reference, so the in-place rewriting of a new query's events is
    seen through the input query on the next version's iteration. *)
Module Locals.
Record t := mk {
  dataSourceMapping : gmap Id Id;
  dataSourceOptionsMapping : gmap Id OptionsBag;
  dataQueryMapping : gmap Id Id;
  appVersionMapping : gmap Id Id;
  appEnvironmentMapping : gmap Id Id;
  appDefaultEnvironmentMapping : gmap Id Id;
  dataQueries : list QueryParams.t
}.
End Locals.

Section AppImportExportService.

Variable dataSourcesService : DataSourcesService.

(** Reading a property of the [any]-typed argument: [undefined] and [null]
    have no properties, a primitive has none of the snapshot's. *)
Definition properties (appParams : JsValue) : Exception + AppParams.t :=
  match appParams with
  | JsUndefined | JsNull => inl TypeError
  | JsObject o => inr o
  | _ => inr AppParams.empty
  end.

(** [appParams?.p]: optional chaining reads [undefined] from [null]. *)
Definition optionalProperties (appParams : JsValue) : AppParams.t :=
  match appParams with
  | JsObject o => o
  | _ => AppParams.empty
  end.

Definition createImportedAppForUser (appParams : JsValue) (user : User.t)
    (s : Store) : Exception + App.t * Store :=
  match properties appParams with
  | inl e => inl e
  | inr o =>
      let importedApp :=
        App.mk (nextId s) (AppParams.name o) (User.organizationId user)
          (User.id user) None false None in
      inr (importedApp, bumpId (with_apps (λ t, t ++ [importedApp]) s))
  end.

(** Body of the first loop: [for (const appVersion of appVersions)]
    (lines 133-160).  The criteria of the update of line 157 is
    [importedApp], the application as it is held in memory, which no update
    refreshes: the row is selected as long as it has the values the
    application was saved with, that is until its pointer is set. *)
Definition createVersion (importedApp : App.t) (currentVersionId : option Id)
    (appEnvironments : list EnvironmentParams.t)
    (st : gmap Id Id * gmap Id Id * Store) (appVersion : VersionParams.t)
    : gmap Id Id * gmap Id Id * Store :=
  let '(appDefaultEnvironmentMapping, appVersionMapping, s) := st in
  let version :=
    AppVersion.mk (nextId s) (App.id importedApp)
      (VersionParams.definition appVersion) (VersionParams.name appVersion)
      (clock s) (clock s) in
  let s := tick (bumpId (with_app_versions (λ t, t ++ [version]) s)) in
  let '(appDefaultEnvironmentMapping, s) :=
    if length appEnvironments =? 0 then
      let env :=
        AppEnvironment.mk (nextId s) (Some (AppVersion.id version))
          (Some "production") (Some true) in
      (<[VersionParams.id appVersion := AppEnvironment.id env]>
         appDefaultEnvironmentMapping,
       bumpId (with_app_environments (λ t, t ++ [env]) s))
    else (appDefaultEnvironmentMapping, s) in
  let s :=
    if match currentVersionId with
       | Some c => VersionParams.id appVersion =? c
       | None => false
       end
    then
      with_apps (updateWhere (App.matches importedApp)
        (App.set_currentVersionId (Some (AppVersion.id version)))) s
    else s in
  (appDefaultEnvironmentMapping,
   <[VersionParams.id appVersion := AppVersion.id version]> appVersionMapping,
   s).

(** [for (const appEnvironment of appEnvironments)] (lines 164-175). *)
Definition createEnvironment (appVersionMapping : gmap Id Id)
    (st : gmap Id Id * Store) (appEnvironment : EnvironmentParams.t)
    : gmap Id Id * Store :=
  let '(appEnvironmentMapping, s) := st in
  let env :=
    AppEnvironment.mk (nextId s)
      (lookupKey appVersionMapping (EnvironmentParams.versionId appEnvironment))
      (EnvironmentParams.name appEnvironment)
      (EnvironmentParams.isDefault appEnvironment) in
  (<[EnvironmentParams.id appEnvironment := AppEnvironment.id env]>
     appEnvironmentMapping,
   bumpId (with_app_environments (λ t, t ++ [env]) s)).

(** [for (const source of dataSources)] (lines 178-206). *)
Definition createDataSource (appVersionMapping : gmap Id Id)
    (appVersion : VersionParams.t)
    (st : gmap Id OptionsBag * gmap Id Id * Store) (source : SourceParams.t)
    : gmap Id OptionsBag * gmap Id Id * Store :=
  let '(dataSourceOptionsMapping, dataSourceMapping, s) := st in
  let dataSourceOptionsMapping :=
    match SourceParams.options source with
    | Some options =>
        let convertedOptions := convertToArrayOfKeyValuePairs options in
        let newOptions :=
          parseOptionsForCreate dataSourcesService convertedOptions in
        <[SourceParams.id source := newOptions]> dataSourceOptionsMapping
    | None => dataSourceOptionsMapping
    end in
  if match SourceParams.appVersionId source with
     | Some v => negb (v =? VersionParams.id appVersion)
     | None => false
     end
  then (dataSourceOptionsMapping, dataSourceMapping, s)
  else
    let appVersionId := appVersionMapping !! VersionParams.id appVersion in
    let newSource :=
      DataSource.mk (nextId s) (SourceParams.name source)
        (SourceParams.kind source) appVersionId in
    (dataSourceOptionsMapping,
     <[SourceParams.id source := DataSource.id newSource]> dataSourceMapping,
     bumpId (with_data_sources (λ t, t ++ [newSource]) s)).

(** The loop of lines 209-218, run when the input has no
    [dataSourceOptions] entries. *)
Definition createLegacyOptions (appDefaultEnvironmentMapping : gmap Id Id)
    (dataSourceOptionsMapping : gmap Id OptionsBag)
    (appVersion : VersionParams.t) (s : Store) (source : SourceParams.t)
    : Store :=
  let dsOption :=
    DataSourceOptions.mk (nextId s)
      (appDefaultEnvironmentMapping !! VersionParams.id appVersion)
      (Some (SourceParams.id source))
      (dataSourceOptionsMapping !! SourceParams.id source) in
  bumpId (with_data_source_options (λ t, t ++ [dsOption]) s).

(** [for (const dataSourceOption of dataSourceOptions)] (lines 221-230);
    the value given for the [dataSource] relation is the row's data source
    reference. *)
Definition createDataSourceOption (appEnvironmentMapping : gmap Id Id)
    (dataSourceMapping : gmap Id Id) (s : Store)
    (dataSourceOption : SourceOptionsParams.t) : Store :=
  let dsOption :=
    DataSourceOptions.mk (nextId s)
      (lookupKey appEnvironmentMapping
         (SourceOptionsParams.environmentId dataSourceOption))
      (lookupKey dataSourceMapping
         (SourceOptionsParams.dataSource dataSourceOption))
      (SourceOptionsParams.options dataSourceOption) in
  bumpId (with_data_source_options (λ t, t ++ [dsOption]) s).

(** [for (const query of dataQueries)] (lines 233-243); the second
    component accumulates [newDataQueries]. *)
Definition createDataQuery (dataSourceMapping : gmap Id Id)
    (st : gmap Id Id * list DataQuery.t * Store) (query : QueryParams.t)
    : gmap Id Id * list DataQuery.t * Store :=
  let '(dataQueryMapping, newDataQueries, s) := st in
  let newQuery :=
    DataQuery.mk (nextId s) (QueryParams.name query) (QueryParams.kind query)
      (QueryParams.options query)
      (lookupKey dataSourceMapping (QueryParams.dataSourceId query)) in
  (<[QueryParams.id query := DataQuery.id newQuery]> dataQueryMapping,
   newDataQueries ++ [newQuery],
   bumpId (with_data_queries (λ t, t ++ [newQuery]) s)).

(** [for (const newQuery of newDataQueries)] (lines 245-249). *)
Definition remapDataQuery (dataQueryMapping : gmap Id Id) (s : Store)
    (newQuery : DataQuery.t) : Store :=
  let newOptions :=
    replaceDataQueryOptionsWithNewDataQueryIds (DataQuery.options newQuery)
      dataQueryMapping in
  with_data_queries
    (updateWhereId DataQuery.id (DataQuery.id newQuery)
       (λ _, DataQuery.set_options newOptions newQuery)) s.

(** Lines 251-255: reload the version, rewrite its definition, save it. *)
Definition remapVersionDefinition (appVersionMapping : gmap Id Id)
    (dataQueryMapping : gmap Id Id) (appVersion : VersionParams.t)
    (s : Store) : Exception + Store :=
  match
    appVersionMapping !! VersionParams.id appVersion ≫= λ k,
    findById AppVersion.id k (app_versions s)
  with
  | None => inl TypeError
  | Some version =>
      let definition :=
        replaceDataQueryIdWithinDefinitions (AppVersion.definition version)
          dataQueryMapping in
      inr (with_app_versions
             (updateWhereId AppVersion.id (AppVersion.id version)
                (λ _, AppVersion.set_definition definition version)) s)
  end.

(** Body of the second loop: [for (const appVersion of appVersions)]
    (lines 163-256). *)
Definition associateVersion (appEnvironments : list EnvironmentParams.t)
    (dataSources : list SourceParams.t)
    (dataSourceOptions : list SourceOptionsParams.t)
    (st : Locals.t * Store) (appVersion : VersionParams.t)
    : Exception + Locals.t * Store :=
  let '(l, s) := st in
  let '(appEnvironmentMapping, s) :=
    foldl (createEnvironment (Locals.appVersionMapping l))
      (Locals.appEnvironmentMapping l, s) appEnvironments in
  let '(dataSourceOptionsMapping, dataSourceMapping, s) :=
    foldl (createDataSource (Locals.appVersionMapping l) appVersion)
      (Locals.dataSourceOptionsMapping l, Locals.dataSourceMapping l, s) dataSources in
  let s :=
    if length dataSourceOptions =? 0 then
      foldl (createLegacyOptions (Locals.appDefaultEnvironmentMapping l)
               dataSourceOptionsMapping appVersion) s dataSources
    else s in
  let s :=
    foldl (createDataSourceOption appEnvironmentMapping dataSourceMapping) s
      dataSourceOptions in
  let '(dataQueryMapping, newDataQueries, s) :=
    foldl (createDataQuery dataSourceMapping) (Locals.dataQueryMapping l, [], s)
      (Locals.dataQueries l) in
  let s := foldl (remapDataQuery dataQueryMapping) s newDataQueries in
  let dataQueries :=
    map (λ query,
      QueryParams.set_options
        (replaceDataQueryOptionsWithNewDataQueryIds (QueryParams.options query)
           dataQueryMapping) query) (Locals.dataQueries l) in
  match remapVersionDefinition (Locals.appVersionMapping l) dataQueryMapping appVersion s with
  | inl e => inl e
  | inr s =>
      inr (Locals.mk dataSourceMapping dataSourceOptionsMapping dataQueryMapping
             (Locals.appVersionMapping l) appEnvironmentMapping
             (Locals.appDefaultEnvironmentMapping l) dataQueries, s)
  end.

(** A [for] loop whose body may throw. *)
Fixpoint forEach {S A} (body : S → A → Exception + S) (st : S) (l : list A)
    : Exception + S :=
  match l with
  | [] => inr st
  | x :: l =>
      match body st x with
      | inl e => inl e
      | inr st => forEach body st l
      end
  end.

Definition setEditingVersionAsLatestVersion (appVersionMapping : gmap Id Id)
    (appVersions : list VersionParams.t) (s : Store) : Store :=
  match last appVersions with
  | None => s
  | Some lastVersionFromImport =>
      match appVersionMapping !! VersionParams.id lastVersionFromImport with
      | Some lastVersionIdToUpdate =>
          tick (with_app_versions
                  (updateWhereId AppVersion.id lastVersionIdToUpdate
                     (AppVersion.set_updatedAt (clock s))) s)
      | None => tick s
      end
  end.

Definition buildImportedAppAssociations (importedApp : App.t)
    (appParams : AppParams.t) (s : Store) : Exception + Store :=
  let dataSources := default [] (AppParams.dataSources appParams) in
  let dataQueries := default [] (AppParams.dataQueries appParams) in
  let appVersions := default [] (AppParams.appVersions appParams) in
  let appEnvironments := default [] (AppParams.appEnvironments appParams) in
  let dataSourceOptions := default [] (AppParams.dataSourceOptions appParams) in
  let '(appDefaultEnvironmentMapping, appVersionMapping, s) :=
    foldl (createVersion importedApp (AppParams.currentVersionId appParams)
             appEnvironments) (∅, ∅, s) appVersions in
  match
    forEach (associateVersion appEnvironments dataSources dataSourceOptions)
      (Locals.mk ∅ ∅ ∅ appVersionMapping ∅ appDefaultEnvironmentMapping
         dataQueries, s) appVersions
  with
  | inl e => inl e
  | inr (l, s) =>
      inr (setEditingVersionAsLatestVersion (Locals.appVersionMapping l) appVersions s)
  end.

(** The loop over the organization's admin groups returns from its first
    iteration. *)
Definition createAdminGroupPermissions (app : App.t) (s : Store) : Store :=
  let orgDefaultGroupPermissions :=
    List.filter
      (λ g, (GroupPermission.organizationId g =? App.organizationId app)
            && String.eqb (GroupPermission.group g) "admin")
      (group_permissions s) in
  match orgDefaultGroupPermissions with
  | groupPermission :: _ =>
      let appGroupPermission :=
        AppGroupPermission.mk (nextId s) (GroupPermission.id groupPermission)
          (App.id app) true true true in
      bumpId (with_app_group_permissions (λ t, t ++ [appGroupPermission]) s)
  | [] => s
  end.

(** [dbTransactionWrap]: all or nothing. *)
Definition dbTransactionWrap {A} (operation : Store → Exception + A * Store)
    (s : Store) : (Exception + A) * Store :=
  match operation s with
  | inl e => (inl e, s)
  | inr (a, s') => (inr a, s')
  end.

Definition import (user : User.t) (appParams : JsValue) (s : Store)
    : (Exception + App.t) * Store :=
  if negb (String.eqb (typeof appParams) "object") then
    (inl (BadRequestException "Invalid params for app import"), s)
  else
    match
      dbTransactionWrap (λ s,
        match createImportedAppForUser appParams user s with
        | inl e => inl e
        | inr (importedApp, s) =>
            match
              buildImportedAppAssociations importedApp
                (optionalProperties appParams) s
            with
            | inl e => inl e
            | inr s => inr (importedApp, createAdminGroupPermissions importedApp s)
            end
        end) s
    with
    | (inl e, s) => (inl e, s)
    | (inr importedApp, s) =>
        match findById App.id (App.id importedApp) (apps s) with
        | None => (inl EntityNotFoundError, s)
        | Some reloaded =>
            let importedApp := App.set_slug (Some (App.id reloaded)) reloaded in
            (inr importedApp,
             with_apps (updateWhereId App.id (App.id importedApp)
                          (λ _, importedApp)) s)
        end
    end.

(** ** Export *)

(** What [export] returns: the application record with the five lists
    attached to it. *)
Record ExportedApp := mkExportedApp {
  exportedApp : App.t;
  exportedDataQueries : list DataQuery.t;
  exportedDataSources : list DataSource.t;
  exportedAppVersions : list AppVersion.t;
  exportedAppEnvironments : list AppEnvironment.t;
  exportedDataSourceOptions : list DataSourceOptions.t
}.

(** [column IN (ids)]. *)
Definition inIds (k : option Id) (ids : list Id) : bool :=
  match k with
  | Some k => existsb (Nat.eqb k) ids
  | None => false
  end.

(** A query of the query builder, [where(condition, parameters)] followed
    by [getMany()].  [placeholders] are the names the raw condition writes as
    [:name], [parameters] the keys of the parameter object, [rows] the rows
    the condition selects.  A placeholder that has no parameter stays in the
    statement as it is written, the database rejects the statement, and
    [getMany] throws a QueryFailedError. *)
Definition getMany {A} (placeholders parameters : list string)
    (rows : list A) : Exception + list A :=
  if forallb (λ name, existsb (String.eqb name) parameters) placeholders
  then inr rows
  else inl QueryFailedError.

(** The five queries of the read transaction, which changes nothing in the
    store.  The condition of the last one is [environmentId
    IN(:environmentId)] while its parameter object is [{ versionId: ... }]
    (lines 66-67): the placeholder has no parameter, so this query fails
    whenever it is reached.  The conditions of the second to the fourth
    query may be rejected as well (line 34 names [appId] without its alias,
    lines 42 and 58 bind a list to a placeholder that is not spread); that
    would raise the same QueryFailedError somewhat earlier, in a transaction
    that only reads, and is not distinguished here. *)
Definition export (user : User.t) (id : Id) (s : Store)
    : Exception + ExportedApp :=
  match
    head (List.filter
            (λ a, (App.id a =? id)
                  && (App.organizationId a =? User.organizationId user))
            (apps s))
  with
  | None => inl TypeError
  | Some appToExport =>
      match
        getMany ["appId"] ["appId"]
          (List.filter (λ v, AppVersion.appId v =? App.id appToExport)
             (app_versions s))
      with
      | inl e => inl e
      | inr appVersions =>
      match
        getMany ["versionId"] ["versionId"]
          (List.filter
             (λ d, inIds (DataSource.appVersionId d)
                     (map AppVersion.id appVersions))
             (data_sources s))
      with
      | inl e => inl e
      | inr dataSources =>
      match
        getMany ["dataSourceId"] ["dataSourceId"]
          (List.filter
             (λ q, inIds (DataQuery.dataSourceId q)
                     (map DataSource.id dataSources))
             (data_queries s))
      with
      | inl e => inl e
      | inr dataQueries =>
      match
        getMany ["versionId"] ["versionId"]
          (List.filter
             (λ e, inIds (AppEnvironment.appVersionId e)
                     (map AppVersion.id appVersions))
             (app_environments s))
      with
      | inl e => inl e
      | inr appEnvironments =>
      match
        getMany ["environmentId"] ["versionId"]
          (List.filter
             (λ o, inIds (DataSourceOptions.environmentId o)
                     (map AppEnvironment.id appEnvironments))
             (data_source_options s))
      with
      | inl e => inl e
      | inr dataSourceOptions =>
          inr (mkExportedApp appToExport dataQueries dataSources appVersions
                 appEnvironments dataSourceOptions)
      end end end end end
  end.

End AppImportExportService.

(** ** Event bindings reached by the remapper *)

(** The bindings of a query's options: [options.events]. *)
Definition optionsBindings (options : option QueryOptions.t) : list Event.t :=
  default [] (options ≫= QueryOptions.events).

Definition actionBindings (value : Action.t) : list Event.t :=
  default [] (Action.events value).

Definition columnBindings (column : Column.t) : list Event.t :=
  default [] (Column.events column).

(** The bindings of a component that the remapper visits: its own events,
    the events of its actions and, for a table, the events of its columns. *)
Definition componentBindings (component : Component.t) : list Event.t :=
  default [] (Component.events component)
  ++ concat (map actionBindings (default [] (Component.actions component)))
  ++ (if decide (Component.component component = Some "Table") then
        concat (map columnBindings (default [] (Component.columns component)))
      else []).

Definition definitionBindings (definition : option AppDefinition.t)
    : list Event.t :=
  concat (map (λ entry, componentBindings entry.2)
            (default [] (definition ≫= AppDefinition.components))).

(** * Definitions used by the statements and their proofs *)

(** ** What the statements speak of *)

(** A binding, a bag of options and a definition with every query id
    forgotten: all that is left is what a rewriting of query ids has to
    keep. *)
Definition sansQueryId (e : Event.t) : Event.t := Event.mk None (Event.rest e).

Definition sansQueryIds (events : option (list Event.t))
    : option (list Event.t) :=
  map sansQueryId <$> events.

Definition optionsSansQueryIds (options : option QueryOptions.t)
    : option QueryOptions.t :=
  (λ o, QueryOptions.mk (sansQueryIds (QueryOptions.events o))
          (QueryOptions.rest o)) <$> options.

Definition componentSansQueryIds (c : Component.t) : Component.t :=
  Component.mk (Component.component c) (sansQueryIds (Component.events c))
    (map (λ value, Action.mk (sansQueryIds (Action.events value))
                     (Action.rest value)) <$> Component.actions c)
    (map (λ column, Column.mk (sansQueryIds (Column.events column))
                      (Column.rest column)) <$> Component.columns c).

Definition definitionSansQueryIds (definition : option AppDefinition.t)
    : option AppDefinition.t :=
  (λ d, AppDefinition.mk
          (map (λ entry, (entry.1, componentSansQueryIds entry.2))
           <$> AppDefinition.components d)) <$> definition.

(** Every id the store has handed out, and every reference to one, is below
    [nextId]; version ids are keys. *)
Record freshIds (s : Store) : Prop := {
  fresh_apps : ∀ a, a ∈ apps s → App.id a < nextId s;
  fresh_versions : ∀ v, v ∈ app_versions s → AppVersion.id v < nextId s;
  fresh_version_apps : ∀ v, v ∈ app_versions s → AppVersion.appId v < nextId s;
  fresh_version_keys : NoDup (map AppVersion.id (app_versions s));
  fresh_environments :
    ∀ e k, e ∈ app_environments s → AppEnvironment.appVersionId e = Some k →
           k < nextId s;
  fresh_grants :
    ∀ p, p ∈ app_group_permissions s → AppGroupPermission.appId p < nextId s
}.

(** The rows an operation added to a table. *)
Definition createdRows {A} (before after : list A) : list A :=
  drop (length before) after.

Definition environmentOf (k : Id) (e : AppEnvironment.t) : bool :=
  bool_decide (AppEnvironment.appVersionId e = Some k).

(** The versions of an application that its current-version pointer
    designates. *)
Definition currentVersions (app : App.t) (s : Store) : list AppVersion.t :=
  List.filter
    (λ v, (AppVersion.appId v =? App.id app)
          && bool_decide (App.currentVersionId app = Some (AppVersion.id v)))
    (app_versions s).

(** The organization's admin groups, as the seeder's query finds them. *)
Definition adminGroups (organizationId : Id) (s : Store)
    : list GroupPermission.t :=
  List.filter
    (λ g, (GroupPermission.organizationId g =? organizationId)
          && String.eqb (GroupPermission.group g) "admin")
    (group_permissions s).

Definition isCurrent (currentVersionId : option Id) (v : VersionParams.t)
    : bool :=
  match currentVersionId with
  | Some c => VersionParams.id v =? c
  | None => false
  end.

(** A source is left out of a version's iteration when it names another
    version. *)
Definition skipped (appVersion : VersionParams.t) (source : SourceParams.t)
    : bool :=
  match SourceParams.appVersionId source with
  | Some v => negb (v =? VersionParams.id appVersion)
  | None => false
  end.

(** ** The loops of [buildImportedAppAssociations] in closed form *)

(** Each loop inserts rows whose ids follow one another from the id [n] the
    store hands out first; the definitions below give the rows and mappings
    a loop leaves behind. *)

(** Ids taken by one iteration of the first loop: the version and, when the
    input has no environments, its default environment. *)
Definition idsPerVersion (appEnvironments : list EnvironmentParams.t) : nat :=
  if length appEnvironments =? 0 then 2 else 1.

Definition newVersions (importedApp : App.t) (n w : nat) (c : Date)
    (versions : list VersionParams.t) : list AppVersion.t :=
  imap (λ i v,
    AppVersion.mk (n + w * i) (App.id importedApp)
      (VersionParams.definition v) (VersionParams.name v) (c + i) (c + i))
    versions.

Definition defaultEnvironments (appEnvironments : list EnvironmentParams.t)
    (n : Id) (versions : list VersionParams.t) : list AppEnvironment.t :=
  if length appEnvironments =? 0 then
    imap (λ i (_ : VersionParams.t),
      AppEnvironment.mk (n + 2 * i + 1) (Some (n + 2 * i)) (Some "production")
        (Some true)) versions
  else [].

Definition productionEnvironments (n : Id) (versions : list VersionParams.t)
    : list AppEnvironment.t :=
  imap (λ i (_ : VersionParams.t),
    AppEnvironment.mk (n + 2 * i + 1) (Some (n + 2 * i)) (Some "production")
      (Some true)) versions.

Fixpoint versionMapping (appVersionMapping : gmap Id Id) (n w : nat)
    (versions : list VersionParams.t) : gmap Id Id :=
  match versions with
  | [] => appVersionMapping
  | v :: versions =>
      versionMapping (<[VersionParams.id v := n]> appVersionMapping) (n + w) w
        versions
  end.

Fixpoint defaultEnvironmentMapping
    (appEnvironments : list EnvironmentParams.t) (m : gmap Id Id) (n : nat)
    (versions : list VersionParams.t) : gmap Id Id :=
  match versions with
  | [] => m
  | v :: versions =>
      if length appEnvironments =? 0 then
        defaultEnvironmentMapping appEnvironments
          (<[VersionParams.id v := n + 1]> m) (n + 2) versions
      else m
  end.

(** The new id of the first input version whose id is the declared current
    version id, if there is one. *)
Fixpoint importedCurrentVersion (currentVersionId : option Id) (n w : nat)
    (versions : list VersionParams.t) : option Id :=
  match versions with
  | [] => None
  | v :: versions =>
      if isCurrent currentVersionId v then Some n
      else importedCurrentVersion currentVersionId (n + w) w versions
  end.

(** The updates of the current-version pointer the first loop issues, one
    for every input version with the declared id, each with the imported
    application as it is in memory for its criteria. *)
Fixpoint currentVersionUpdates (importedApp : App.t)
    (currentVersionId : option Id) (n w : nat)
    (versions : list VersionParams.t) (rows : list App.t) : list App.t :=
  match versions with
  | [] => rows
  | v :: versions =>
      currentVersionUpdates importedApp currentVersionId (n + w) w versions
        (if isCurrent currentVersionId v then
           updateWhere (App.matches importedApp)
             (App.set_currentVersionId (Some n)) rows
         else rows)
  end.

(** Rows inserted by the five inner loops, numbered from the id [n] the
    store hands out first. *)
Definition newEnvironments (appVersionMapping : gmap Id Id) (n : Id)
    (appEnvironments : list EnvironmentParams.t) : list AppEnvironment.t :=
  imap (λ i e,
    AppEnvironment.mk (n + i)
      (lookupKey appVersionMapping (EnvironmentParams.versionId e))
      (EnvironmentParams.name e) (EnvironmentParams.isDefault e))
    appEnvironments.

Definition newDataSources (appVersionId : option Id) (n : Id)
    (sources : list SourceParams.t) : list DataSource.t :=
  imap (λ i source,
    DataSource.mk (n + i) (SourceParams.name source)
      (SourceParams.kind source) appVersionId)
    sources.

Definition newLegacyOptions (environmentId : option Id)
    (dataSourceOptionsMapping : gmap Id OptionsBag) (n : Id)
    (sources : list SourceParams.t) : list DataSourceOptions.t :=
  imap (λ i source,
    DataSourceOptions.mk (n + i) environmentId (Some (SourceParams.id source))
      (dataSourceOptionsMapping !! SourceParams.id source))
    sources.

Definition newDataSourceOptions (appEnvironmentMapping : gmap Id Id)
    (dataSourceMapping : gmap Id Id) (n : Id)
    (dataSourceOptions : list SourceOptionsParams.t)
    : list DataSourceOptions.t :=
  imap (λ i o,
    DataSourceOptions.mk (n + i)
      (lookupKey appEnvironmentMapping (SourceOptionsParams.environmentId o))
      (lookupKey dataSourceMapping (SourceOptionsParams.dataSource o))
      (SourceOptionsParams.options o))
    dataSourceOptions.

Definition newDataQueries (dataSourceMapping : gmap Id Id) (n : Id)
    (queries : list QueryParams.t) : list DataQuery.t :=
  imap (λ i query,
    DataQuery.mk (n + i) (QueryParams.name query) (QueryParams.kind query)
      (QueryParams.options query)
      (lookupKey dataSourceMapping (QueryParams.dataSourceId query)))
    queries.

(** The query-id mapping after the queries are created. *)
Fixpoint newDataQueryMapping (dataQueryMapping : gmap Id Id) (n : Id)
    (queries : list QueryParams.t) : gmap Id Id :=
  match queries with
  | [] => dataQueryMapping
  | query :: queries =>
      newDataQueryMapping (<[QueryParams.id query := n]> dataQueryMapping)
        (S n) queries
  end.

(** A new query after the rewriting of its options. *)
Definition remappedQuery (dataQueryMapping : gmap Id Id) (newQuery : DataQuery.t)
    : DataQuery.t :=
  DataQuery.set_options
    (replaceDataQueryOptionsWithNewDataQueryIds (DataQuery.options newQuery)
       dataQueryMapping) newQuery.

(** What the saves of the rewritten queries do to one row. *)
Definition remapRow (dataQueryMapping : gmap Id Id)
    (newQueries : list DataQuery.t) (row : DataQuery.t) : DataQuery.t :=
  foldl (λ row newQuery,
    if DataQuery.id row =? DataQuery.id newQuery
    then remappedQuery dataQueryMapping newQuery else row) row newQueries.

(** A version row without its definition, the one column the second loop
    writes. *)
Definition sansDefinition (v : AppVersion.t) : AppVersion.t :=
  AppVersion.set_definition None v.

(** What identifies a version row and is never rewritten by the import. *)
Definition versionKey (v : AppVersion.t) : Id * Id * option string :=
  (AppVersion.id v, AppVersion.appId v, AppVersion.name v).

Definition adminGrants (app : App.t) (s : Store) : list AppGroupPermission.t :=
  match adminGroups (App.organizationId app) s with
  | groupPermission :: _ =>
      [AppGroupPermission.mk (nextId s) (GroupPermission.id groupPermission)
         (App.id app) true true true]
  | [] => []
  end.

(** The application [import] returns. *)
Definition importedAppOf (user : User.t) (o : AppParams.t) (s : Store) : App.t :=
  App.mk (nextId s) (AppParams.name o) (User.organizationId user)
    (User.id user) (Some (nextId s)) false
    (importedCurrentVersion (AppParams.currentVersionId o) (S (nextId s))
       (idsPerVersion (default [] (AppParams.appEnvironments o)))
       (default [] (AppParams.appVersions o))).

(** ** Concrete stores and snapshots *)

(** A service whose option parsing stores every option as it is given; used
    to run the model on concrete inputs. *)
Definition plainOptions : DataSourcesService :=
  {| parseOptionsForCreate :=
       map (λ o, (KeyValuePair.key o,
                  (KeyValuePair.value o, KeyValuePair.encrypted o))) |}.

Definition legacyStore : Store := mkStore [] [] [] [] [] [] [] [] 100 0.

(** A legacy snapshot: one version, no environments, no standalone
    data-source options, one data source (id 5) with inline options
    [{host: {value: "a", encrypted: false}}]. *)
Definition legacySnapshot : AppParams.t :=
  AppParams.mk (Some "legacy") (Some 1)
    (Some [VersionParams.mk 1 (Some "v1") None])
    None
    (Some [SourceParams.mk 5 (Some "db") (Some "postgresql") None
             (Some [("host", ("a", false))])])
    None
    None.

Definition twoAdminGroups : Store :=
  mkStore [] [] [] [] [] []
    [GroupPermission.mk 50 10 "admin"; GroupPermission.mk 51 10 "admin";
     GroupPermission.mk 52 10 "all_users"] [] 100 0.

(** The store and the requester used to run [export] on another
    organization's application: application 1 belongs to organization 10,
    the requester to organization 20. *)
Definition foreignStore : Store :=
  mkStore [App.mk 1 (Some "crm") 10 3 (Some 1) false None] [] [] [] [] [] [] []
    2 0.
Definition foreignUser : User.t := User.mk 4 20.

(** A snapshot whose declared current version, 9, is none of its versions. *)
Definition strayCurrentVersion : AppParams.t :=
  AppParams.mk (Some "stray") (Some 9)
    (Some [VersionParams.mk 1 (Some "v1") None]) None None None None.

(** An application with two versions, each with its environment, one data
    source and one query whose success event runs the query itself. *)
Definition twoVersionStore : Store :=
  mkStore
    [App.mk 1 (Some "crm") 10 3 (Some 1) false (Some 3)]
    [AppVersion.mk 2 1 None (Some "v1") 0 0;
     AppVersion.mk 3 1 None (Some "v2") 1 1]
    [AppEnvironment.mk 4 (Some 2) (Some "production") (Some true);
     AppEnvironment.mk 5 (Some 3) (Some "production") (Some true)]
    [DataSource.mk 6 (Some "db") (Some "postgresql") (Some 2)]
    []
    [DataQuery.mk 7 (Some "list") (Some "postgresql")
       (Some (QueryOptions.mk (Some [Event.mk (Some 7) "onSuccess"]) "select"))
       (Some 6)]
    [] [] 8 2.

(** An application with one version, whose definition has a table with a
    column event running query 5, one environment, one data source and one
    query. *)
Definition oneVersionStore : Store :=
  mkStore
    [App.mk 1 (Some "crm") 10 3 (Some 1) false (Some 2)]
    [AppVersion.mk 2 1
       (Some (AppDefinition.mk (Some
          [("table1",
            Component.mk (Some "Table") None None
              (Some [Column.mk (Some [Event.mk (Some 5) "onClick"]) "c1"]))])))
       (Some "v1") 0 0]
    [AppEnvironment.mk 3 (Some 2) (Some "production") (Some true)]
    [DataSource.mk 4 (Some "db") (Some "postgresql") (Some 2)]
    []
    [DataQuery.mk 5 (Some "list") (Some "postgresql")
       (Some (QueryOptions.mk (Some [Event.mk (Some 5) "onSuccess"]) "select"))
       (Some 4)]
    [] [] 6 1.

(** The mapping and the options used to refute the retention of an
    unresolved query id. *)
Definition unresolvedMapping : gmap Id Id := {[8 := 108]}.
Definition unresolvedOptions : option QueryOptions.t :=
  Some (QueryOptions.mk (Some [Event.mk (Some 7) "runQuery"]) "select 1").

Definition unresolvedDefinition : option AppDefinition.t :=
  Some (AppDefinition.mk (Some
    [("button1",
      Component.mk (Some "Button") (Some [Event.mk (Some 7) "runQuery"])
        None None)])).


(** Options of a query whose success event runs query 7. *)
Definition selfRunningOptions : option QueryOptions.t :=
  Some (QueryOptions.mk (Some [Event.mk (Some 7) "onSuccess"]) "select").

(** A snapshot with two versions, one data source and one query whose
    success event runs the query itself. *)
Definition twoVersionSnapshot : AppParams.t :=
  AppParams.mk (Some "crm") (Some 2)
    (Some [VersionParams.mk 2 (Some "v1") None;
           VersionParams.mk 3 (Some "v2") None])
    None
    (Some [SourceParams.mk 6 (Some "db") (Some "postgresql") None None])
    None
    (Some [QueryParams.mk 7 (Some "list") (Some "postgresql") (Some 6)
             (Some (QueryOptions.mk (Some [Event.mk (Some 7) "onSuccess"])
                      "select"))]).


(** A snapshot with two versions of the same id, which is the declared
    current version id. *)
Definition repeatedVersionId : AppParams.t :=
  AppParams.mk (Some "twice") (Some 1)
    (Some [VersionParams.mk 1 (Some "a") None;
           VersionParams.mk 1 (Some "b") None])
    None None None None.

(** Equality of two stores, or of two loop states, field by field. *)
Ltac store_eq :=
  repeat match goal with
         | |- (_, _) = (_, _) => f_equal
         | |- mkStore _ _ _ _ _ _ _ _ _ _ = mkStore _ _ _ _ _ _ _ _ _ _ => f_equal
         end;
  try reflexivity; try lia.

(** * Properties *)

(** ** Pure rewriting functions *)

Lemma replaceEventQueryId_rest m e :
  Event.rest (replaceEventQueryId m e) = Event.rest e.
Proof. unfold replaceEventQueryId. by destruct (Event.queryId e). Qed.

Lemma replaceEventQueryId_mapped m e q :
  Event.queryId e = Some q →
  replaceEventQueryId m e = Event.mk (m !! q) (Event.rest e).
Proof. unfold replaceEventQueryId. by intros ->. Qed.

Lemma replaceEventQueryId_absent m e :
  Event.queryId e = None → replaceEventQueryId m e = e.
Proof. unfold replaceEventQueryId. by intros ->. Qed.

(** Whatever the mapping, a rewritten binding has no query id or one that
    the mapping yields. *)
Lemma replaceEventQueryId_range m e k :
  Event.queryId (replaceEventQueryId m e) = Some k →
  ∃ q, Event.queryId e = Some q ∧ m !! q = Some k.
Proof.
  unfold replaceEventQueryId.
  destruct (Event.queryId e) as [q|] eqn:E; simpl; [eauto|].
  rewrite E. discriminate.
Qed.

Lemma optionsBindings_replace options m :
  optionsBindings (replaceDataQueryOptionsWithNewDataQueryIds options m)
  = map (replaceEventQueryId m) (optionsBindings options).
Proof.
  destruct options as [[[evs|] r]|]; reflexivity.
Qed.

Lemma actionBindings_replace m (values : list Action.t) :
  concat (map actionBindings
    (map (λ value,
       match Action.events value with
       | Some events =>
           Action.mk (Some (map (replaceEventQueryId m) events)) (Action.rest value)
       | None => value
       end) values))
  = map (replaceEventQueryId m) (concat (map actionBindings values)).
Proof.
  induction values as [|[[evs|] r] values IH]; simpl; [done| |done].
  rewrite map_app, IH. reflexivity.
Qed.

Lemma columnBindings_replace m (values : list Column.t) :
  concat (map columnBindings
    (map (λ column,
       match Column.events column with
       | Some events =>
           Column.mk (Some (map (replaceEventQueryId m) events)) (Column.rest column)
       | None => column
       end) values))
  = map (replaceEventQueryId m) (concat (map columnBindings values)).
Proof.
  induction values as [|[[evs|] r] values IH]; simpl; [done| |done].
  rewrite map_app, IH. reflexivity.
Qed.

Lemma componentBindings_replace m c :
  componentBindings (replaceWithinComponent m c)
  = map (replaceEventQueryId m) (componentBindings c).
Proof.
  destruct c as [kind evs acts cols].
  unfold componentBindings, replaceWithinComponent; simpl.
  rewrite !map_app. f_equal; [by destruct evs|]. f_equal.
  - destruct acts as [values|]; simpl; [|done]. apply actionBindings_replace.
  - destruct (decide (kind = Some "Table")); [|done].
    destruct cols as [values|]; simpl; [|done]. apply columnBindings_replace.
Qed.

Lemma definitionBindings_replace definition m :
  definitionBindings (replaceDataQueryIdWithinDefinitions definition m)
  = map (replaceEventQueryId m) (definitionBindings definition).
Proof.
  destruct definition as [[[components|]]|]; try reflexivity.
  unfold definitionBindings; simpl.
  induction components as [|[key c] components IH]; simpl; [done|].
  rewrite map_app, componentBindings_replace, IH. reflexivity.
Qed.

Lemma lookup_map {A B} (f : A → B) (l : list A) (i : nat) :
  map f l !! i = f <$> l !! i.
Proof.
  revert i; induction l as [|x l IH]; intros [|i]; simpl; done.
Qed.

(** C2, as stated, fails: the binding refers to query 7, the mapping has no
    entry for 7, and the rewritten binding has lost its query id instead of
    retaining 7. *)
Lemma unresolved_binding_not_retained :
  unresolvedMapping !! 7 = None
  ∧ optionsBindings unresolvedOptions = [Event.mk (Some 7) "runQuery"]
  ∧ optionsBindings
      (replaceDataQueryOptionsWithNewDataQueryIds unresolvedOptions
         unresolvedMapping)
    = [Event.mk None "runQuery"]
  ∧ replaceDataQueryOptionsWithNewDataQueryIds unresolvedOptions
      unresolvedMapping ≠ unresolvedOptions.
Proof. repeat split; try reflexivity. discriminate. Qed.

(** C2 (amended): for every event binding of a data query's options and
    every component event binding visited in a definition (own events,
    action events, table column events), if the binding's queryId has no
    entry in the old-to-new query-id mapping, the rewritten binding has its
    queryId cleared (undefined) and its other properties unchanged; both
    rewriting functions are total, so no error is raised. *)
Theorem unresolved_binding_is_cleared (m : gmap Id Id)
    (options : option QueryOptions.t) (definition : option AppDefinition.t)
    (e : Event.t) (q : Id) :
  Event.queryId e = Some q →
  m !! q = None →
  (∀ i, optionsBindings options !! i = Some e →
     optionsBindings (replaceDataQueryOptionsWithNewDataQueryIds options m) !! i
     = Some (Event.mk None (Event.rest e)))
  ∧ (∀ i, definitionBindings definition !! i = Some e →
     definitionBindings (replaceDataQueryIdWithinDefinitions definition m) !! i
     = Some (Event.mk None (Event.rest e))).
Proof.
  intros Hq Hm.
  split; intros i Hi.
  - rewrite optionsBindings_replace, lookup_map, Hi. simpl.
    by rewrite (replaceEventQueryId_mapped _ _ _ Hq), Hm.
  - rewrite definitionBindings_replace, lookup_map, Hi. simpl.
    by rewrite (replaceEventQueryId_mapped _ _ _ Hq), Hm.
Qed.

Lemma unresolved_binding_is_cleared_witness :
  optionsBindings
    (replaceDataQueryOptionsWithNewDataQueryIds unresolvedOptions
       unresolvedMapping) !! 0
  = Some (Event.mk None "runQuery")
  ∧ definitionBindings
      (replaceDataQueryIdWithinDefinitions unresolvedDefinition
         unresolvedMapping) !! 0
    = Some (Event.mk None "runQuery").
Proof.
  destruct (unresolved_binding_is_cleared unresolvedMapping unresolvedOptions
              unresolvedDefinition (Event.mk (Some 7) "runQuery") 7
              eq_refl eq_refl) as [H1 H2].
  split; [apply (H1 0) | apply (H2 0)]; reflexivity.
Defined.


(** ** The loops of [buildImportedAppAssociations], in closed form *)

Section Loops.

Variable dataSourcesService : DataSourcesService.

Lemma createEnvironment_fold avm envs m s :
  (foldl (createEnvironment avm) (m, s) envs).2
  = mkStore (apps s) (app_versions s)
      (app_environments s ++ newEnvironments avm (nextId s) envs)
      (data_sources s) (data_source_options s) (data_queries s)
      (group_permissions s) (app_group_permissions s)
      (nextId s + length envs) (clock s).
Proof.
  revert m s. induction envs as [|e envs IH]; intros m s; simpl.
  - destruct s; simpl. store_eq. by rewrite app_nil_r.
  - rewrite IH. simpl. store_eq.
    rewrite <- app_assoc. simpl. unfold newEnvironments. simpl.
    do 2 f_equal; [f_equal; lia|].
    apply imap_ext. intros i x _. simpl. f_equal. lia.
Qed.

Lemma createDataSource_step avm v source dsom dsm s :
  ∃ dsom',
    createDataSource dataSourcesService avm v (dsom, dsm, s) source
    = if skipped v source then (dsom', dsm, s)
      else (dsom', <[SourceParams.id source := nextId s]> dsm,
            bumpId (with_data_sources (λ t, t ++
              [DataSource.mk (nextId s) (SourceParams.name source)
                 (SourceParams.kind source) (avm !! VersionParams.id v)]) s)).
Proof.
  eexists. unfold createDataSource, skipped.
  destruct (SourceParams.appVersionId source) as [k|];
    [destruct (k =? VersionParams.id v)|]; reflexivity.
Qed.

Lemma createDataSource_fold avm v sources dsom dsm s :
  let kept := List.filter (λ source, negb (skipped v source)) sources in
  (foldl (createDataSource dataSourcesService avm v) (dsom, dsm, s) sources).2
  = mkStore (apps s) (app_versions s) (app_environments s)
      (data_sources s
       ++ newDataSources (avm !! VersionParams.id v) (nextId s) kept)
      (data_source_options s) (data_queries s)
      (group_permissions s) (app_group_permissions s)
      (nextId s + length kept) (clock s).
Proof.
  cbn zeta. revert dsom dsm s.
  induction sources as [|source sources IH]; intros dsom dsm s.
  - destruct s; simpl. store_eq. by rewrite app_nil_r.
  - cbn [foldl List.filter].
    destruct (createDataSource_step avm v source dsom dsm s) as [dsom' ->].
    destruct (skipped v source); cbn [negb]; rewrite IH; [reflexivity|].
    simpl. store_eq.
    rewrite <- app_assoc. simpl. unfold newDataSources. simpl.
    do 2 f_equal; [f_equal; lia|].
    apply imap_ext. intros i x _. simpl. f_equal. lia.
Qed.

Lemma createLegacyOptions_fold adem dsom v sources s :
  foldl (createLegacyOptions adem dsom v) s sources
  = mkStore (apps s) (app_versions s) (app_environments s) (data_sources s)
      (data_source_options s
       ++ newLegacyOptions (adem !! VersionParams.id v) dsom (nextId s) sources)
      (data_queries s) (group_permissions s) (app_group_permissions s)
      (nextId s + length sources) (clock s).
Proof.
  revert s. induction sources as [|source sources IH]; intros s; simpl.
  - destruct s; simpl. store_eq. by rewrite app_nil_r.
  - rewrite IH. simpl. store_eq.
    rewrite <- app_assoc. simpl. unfold newLegacyOptions. simpl.
    do 2 f_equal; [f_equal; lia|].
    apply imap_ext. intros i x _. simpl. f_equal. lia.
Qed.

Lemma createDataSourceOption_fold aem dsm dsos s :
  foldl (createDataSourceOption aem dsm) s dsos
  = mkStore (apps s) (app_versions s) (app_environments s) (data_sources s)
      (data_source_options s ++ newDataSourceOptions aem dsm (nextId s) dsos)
      (data_queries s) (group_permissions s) (app_group_permissions s)
      (nextId s + length dsos) (clock s).
Proof.
  revert s. induction dsos as [|o dsos IH]; intros s; simpl.
  - destruct s; simpl. store_eq. by rewrite app_nil_r.
  - rewrite IH. simpl. store_eq.
    rewrite <- app_assoc. simpl. unfold newDataSourceOptions. simpl.
    do 2 f_equal; [f_equal; lia|].
    apply imap_ext. intros i x _. simpl. f_equal. lia.
Qed.

Lemma createDataQuery_fold dsm queries dqm created s :
  foldl (createDataQuery dsm) (dqm, created, s) queries
  = (newDataQueryMapping dqm (nextId s) queries,
     created ++ newDataQueries dsm (nextId s) queries,
     mkStore (apps s) (app_versions s) (app_environments s) (data_sources s)
       (data_source_options s)
       (data_queries s ++ newDataQueries dsm (nextId s) queries)
       (group_permissions s) (app_group_permissions s)
       (nextId s + length queries) (clock s)).
Proof.
  revert dqm created s.
  induction queries as [|q queries IH]; intros dqm created s; simpl.
  - destruct s; simpl. rewrite !app_nil_r. do 2 f_equal. lia.
  - rewrite IH. simpl.
    assert (Hq : newDataQueries dsm (nextId s) (q :: queries)
                 = DataQuery.mk (nextId s) (QueryParams.name q)
                     (QueryParams.kind q) (QueryParams.options q)
                     (lookupKey dsm (QueryParams.dataSourceId q))
                   :: newDataQueries dsm (S (nextId s)) queries).
    { unfold newDataQueries. simpl. f_equal; [f_equal; lia|].
      apply imap_ext. intros i x _. simpl. f_equal. lia. }
    rewrite Hq, <- !app_assoc. simpl. f_equal. store_eq.
Qed.

Lemma remapDataQuery_fold dqm newQueries s :
  foldl (remapDataQuery dqm) s newQueries
  = mkStore (apps s) (app_versions s) (app_environments s) (data_sources s)
      (data_source_options s)
      (map (remapRow dqm newQueries) (data_queries s))
      (group_permissions s) (app_group_permissions s) (nextId s) (clock s).
Proof.
  revert s. induction newQueries as [|nq newQueries IH]; intros s; simpl.
  - destruct s; simpl. store_eq. unfold remapRow. simpl. by rewrite map_id.
  - rewrite IH. simpl. store_eq.
    unfold updateWhereId. rewrite map_map. reflexivity.
Qed.

Lemma remapRow_other dqm newQueries row :
  DataQuery.id row ∉ map DataQuery.id newQueries →
  remapRow dqm newQueries row = row.
Proof.
  unfold remapRow. induction newQueries as [|nq newQueries IH]; simpl; [done|].
  intros Hn. rewrite not_elem_of_cons in Hn. destruct Hn as [Hne Hn].
  apply Nat.eqb_neq in Hne. rewrite Hne. auto.
Qed.

Lemma remapRow_own dqm newQueries row :
  NoDup (map DataQuery.id newQueries) →
  row ∈ newQueries →
  remapRow dqm newQueries row = remappedQuery dqm row.
Proof.
  unfold remapRow. induction newQueries as [|nq newQueries IH]; simpl.
  - intros _ H. by apply elem_of_nil in H.
  - intros Hnd Hin. apply NoDup_cons in Hnd as [Hnq Hnd].
    apply elem_of_cons in Hin as [->|Hin].
    + rewrite Nat.eqb_refl. apply (remapRow_other dqm newQueries). exact Hnq.
    + destruct (DataQuery.id row =? DataQuery.id nq) eqn:E; [|auto].
      apply Nat.eqb_eq in E. exfalso. apply Hnq. rewrite <- E.
      apply list_elem_of_In, in_map, list_elem_of_In, Hin.
Qed.

Lemma newDataQueries_ids dsm n queries :
  map DataQuery.id (newDataQueries dsm n queries) = seq n (length queries).
Proof.
  unfold newDataQueries. revert n.
  induction queries as [|q queries IH]; intros n; simpl; [done|].
  f_equal; [lia|]. rewrite <- IH. f_equal.
  apply imap_ext. intros i x _. simpl. f_equal. lia.
Qed.

Lemma remap_newDataQueries dqm dsm n queries :
  map (remapRow dqm (newDataQueries dsm n queries))
    (newDataQueries dsm n queries)
  = map (remappedQuery dqm) (newDataQueries dsm n queries).
Proof.
  apply map_ext_in. intros row Hin. apply remapRow_own.
  - rewrite newDataQueries_ids. apply NoDup_seq.
  - by apply list_elem_of_In.
Qed.

(** One iteration of the second loop, under the two facts that make the
    reload of the version succeed. *)
Lemma associateVersion_spec envs sources dsos l s v k r :
  Locals.appVersionMapping l !! VersionParams.id v = Some k →
  findById AppVersion.id k (app_versions s) = Some r →
  let kept := List.filter (λ source, negb (skipped v source)) sources in
  let legacy := if length dsos =? 0 then length sources else 0 in
  let n := nextId s + length envs + length kept + legacy + length dsos in
  ∃ l' s' dsm,
    associateVersion dataSourcesService envs sources dsos (l, s) v
    = inr (l', s')
    ∧ Locals.appVersionMapping l' = Locals.appVersionMapping l
    ∧ Locals.appDefaultEnvironmentMapping l'
      = Locals.appDefaultEnvironmentMapping l
    ∧ Locals.dataQueryMapping l'
      = newDataQueryMapping (Locals.dataQueryMapping l) n (Locals.dataQueries l)
    ∧ Locals.dataQueries l'
      = map (λ query,
          QueryParams.set_options
            (replaceDataQueryOptionsWithNewDataQueryIds
               (QueryParams.options query) (Locals.dataQueryMapping l'))
            query) (Locals.dataQueries l)
    ∧ apps s' = apps s
    ∧ group_permissions s' = group_permissions s
    ∧ app_group_permissions s' = app_group_permissions s
    ∧ clock s' = clock s
    ∧ nextId s' = n + length (Locals.dataQueries l)
    ∧ app_versions s'
      = updateWhereId AppVersion.id (AppVersion.id r)
          (λ _, AppVersion.set_definition
                  (replaceDataQueryIdWithinDefinitions (AppVersion.definition r)
                     (Locals.dataQueryMapping l')) r)
          (app_versions s)
    ∧ app_environments s'
      = app_environments s
        ++ newEnvironments (Locals.appVersionMapping l) (nextId s) envs
    ∧ data_sources s'
      = data_sources s
        ++ newDataSources (Locals.appVersionMapping l !! VersionParams.id v)
             (nextId s + length envs) kept
    ∧ length (data_source_options s')
      = length (data_source_options s) + legacy + length dsos
    ∧ data_queries s'
      = map (remapRow (Locals.dataQueryMapping l')
               (newDataQueries dsm n (Locals.dataQueries l)))
          (data_queries s)
        ++ map (remappedQuery (Locals.dataQueryMapping l'))
             (newDataQueries dsm n (Locals.dataQueries l)).
Proof.
  intros Hk Hr. cbn zeta. unfold associateVersion.
  pose proof (createEnvironment_fold (Locals.appVersionMapping l) envs
                (Locals.appEnvironmentMapping l) s) as HE.
  destruct (foldl (createEnvironment (Locals.appVersionMapping l))
              (Locals.appEnvironmentMapping l, s) envs) as [aem s1].
  simpl in HE. subst s1.
  match goal with
  | |- context [foldl (createDataSource ?a ?b ?c) (?d, ?e, ?f) sources] =>
      pose proof (createDataSource_fold b c sources d e f) as HS;
      destruct (foldl (createDataSource a b c) (d, e, f) sources)
        as [[dsom dsm] s2]
  end.
  cbn zeta in HS. simpl in HS. subst s2.
  destruct (length dsos =? 0) eqn:Hd; rewrite ?Nat.add_0_r;
    eexists _, _, dsm;
    rewrite ?createLegacyOptions_fold, createDataSourceOption_fold,
      createDataQuery_fold; simpl;
    rewrite remapDataQuery_fold; simpl;
    unfold remapVersionDefinition; simpl; rewrite Hk; simpl; rewrite Hr;
    (split; [reflexivity|]); simpl;
    repeat (split; [reflexivity|]);
    (split; [rewrite ?length_app; unfold newLegacyOptions, newDataSourceOptions;
             rewrite ?length_imap; lia|]);
    rewrite map_app, remap_newDataQueries; reflexivity.
Qed.

(** *** The first loop *)

Lemma defaultEnvironmentMapping_none envs m n versions :
  (length envs =? 0) = false →
  defaultEnvironmentMapping envs m n versions = m.
Proof. intros He. destruct versions; simpl; [done|]. by rewrite He. Qed.

Lemma createVersion_fold importedApp cur envs versions adem avm s :
  let w := idsPerVersion envs in
  foldl (createVersion importedApp cur envs) (adem, avm, s) versions
  = (defaultEnvironmentMapping envs adem (nextId s) versions,
     versionMapping avm (nextId s) w versions,
     mkStore
       (currentVersionUpdates importedApp cur (nextId s) w versions (apps s))
       (app_versions s ++ newVersions importedApp (nextId s) w (clock s) versions)
       (app_environments s ++ defaultEnvironments envs (nextId s) versions)
       (data_sources s) (data_source_options s) (data_queries s)
       (group_permissions s) (app_group_permissions s)
       (nextId s + w * length versions) (clock s + length versions)).
Proof.
  cbn zeta. revert adem avm s.
  induction versions as [|v versions IH]; intros adem avm s.
  - destruct s; simpl. unfold defaultEnvironments, idsPerVersion; simpl.
    destruct (length envs =? 0); rewrite !app_nil_r; store_eq.
  - cbn [foldl]. unfold createVersion at 2. fold (isCurrent cur v).
    unfold idsPerVersion, defaultEnvironments in *.
    destruct (length envs =? 0) eqn:He; destruct (isCurrent cur v) eqn:Hc;
      rewrite IH; simpl; rewrite ?He, ?Hc;
      rewrite ?(defaultEnvironmentMapping_none _ _ _ _ He);
      replace (S (S (nextId s))) with (nextId s + 2) by lia;
      replace (S (nextId s)) with (nextId s + 1) by lia;
      store_eq.
    all: try (f_equal; lia).
    all: try (rewrite ?Nat.add_1_r; reflexivity).
    all: try (rewrite <- app_assoc; simpl; unfold newVersions; simpl;
              do 2 f_equal; [f_equal; lia|];
              apply imap_ext; intros i x _; simpl; f_equal; lia).
    all: try (rewrite <- ?app_assoc, ?app_nil_r; simpl; try reflexivity;
              do 2 f_equal; [f_equal; [lia|f_equal; lia]|];
              apply imap_ext; intros i x _; simpl; f_equal; [lia|f_equal; lia]).
Qed.

(** *** Updates by id *)

Lemma findById_Some {A} (getId : A → Id) k rows r :
  findById getId k rows = Some r → r ∈ rows ∧ getId r = k.
Proof.
  unfold findById. intros H. apply find_some in H as [H1 H2].
  split; [by apply list_elem_of_In | by apply Nat.eqb_eq].
Qed.

Lemma findById_is_Some {A} (getId : A → Id) k rows :
  k ∈ map getId rows → is_Some (findById getId k rows).
Proof.
  unfold findById. induction rows as [|x rows IH]; simpl.
  - intros H. by apply elem_of_nil in H.
  - intros H. destruct (getId x =? k) eqn:E; [eauto|].
    apply elem_of_cons in H as [H|H]; [|auto].
    apply Nat.eqb_neq in E. congruence.
Qed.

Lemma updateWhereId_same_id {A} (getId : A → Id) k (g : A) rows :
  getId g = k →
  map getId (updateWhereId getId k (λ _, g) rows) = map getId rows.
Proof.
  intros Hg. unfold updateWhereId. rewrite map_map. apply map_ext.
  intros x. destruct (getId x =? k) eqn:E; [|done].
  apply Nat.eqb_eq in E. congruence.
Qed.

Lemma NoDup_map_inj {A} (f : A → Id) (l : list A) x y :
  NoDup (map f l) → x ∈ l → y ∈ l → f x = f y → x = y.
Proof.
  induction l as [|a l IH]; simpl; intros Hnd Hx Hy Hxy.
  - by apply elem_of_nil in Hx.
  - apply NoDup_cons in Hnd as [Ha Hnd].
    apply elem_of_cons in Hx as [->|Hx]; apply elem_of_cons in Hy as [->|Hy];
      auto.
    + exfalso. apply Ha. rewrite Hxy.
      apply list_elem_of_In, in_map, list_elem_of_In, Hy.
    + exfalso. apply Ha. rewrite <- Hxy.
      apply list_elem_of_In, in_map, list_elem_of_In, Hx.
Qed.

(** With ids that are keys, saving the row that was found by id is an update
    of that row. *)
Lemma updateWhereId_found {A} (getId : A → Id) k (f : A → A) rows r :
  NoDup (map getId rows) →
  findById getId k rows = Some r →
  updateWhereId getId (getId r) (λ _, f r) rows = updateWhereId getId k f rows.
Proof.
  intros Hnd Hr. apply findById_Some in Hr as [Hin Hk]. subst k.
  unfold updateWhereId. apply map_ext_in. intros x Hx.
  destruct (getId x =? getId r) eqn:E; [|done].
  apply Nat.eqb_eq in E. f_equal. symmetry.
  eapply NoDup_map_inj; eauto. by apply list_elem_of_In.
Qed.

Lemma sansDefinition_update k f rows :
  (∀ v, sansDefinition (f v) = sansDefinition v) →
  map sansDefinition (updateWhereId AppVersion.id k f rows)
  = map sansDefinition rows.
Proof.
  intros Hf. unfold updateWhereId. rewrite map_map. apply map_ext.
  intros x. by destruct (AppVersion.id x =? k).
Qed.

Lemma sansDefinition_ids rows rows' :
  map sansDefinition rows' = map sansDefinition rows →
  map AppVersion.id rows' = map AppVersion.id rows.
Proof.
  intros H. apply (f_equal (map AppVersion.id)) in H.
  rewrite !map_map in H. exact H.
Qed.

(** *** The second loop *)

Lemma associateVersions_spec envs sources dsos versions l s :
  (∀ v, v ∈ versions →
     ∃ k, Locals.appVersionMapping l !! VersionParams.id v = Some k
          ∧ k ∈ map AppVersion.id (app_versions s)) →
  ∃ l' s',
    forEach (associateVersion dataSourcesService envs sources dsos) (l, s)
      versions = inr (l', s')
    ∧ Locals.appVersionMapping l' = Locals.appVersionMapping l
    ∧ apps s' = apps s
    ∧ group_permissions s' = group_permissions s
    ∧ app_group_permissions s' = app_group_permissions s
    ∧ clock s' = clock s
    ∧ nextId s ≤ nextId s'
    ∧ map AppVersion.id (app_versions s') = map AppVersion.id (app_versions s)
    ∧ (NoDup (map AppVersion.id (app_versions s)) →
       map sansDefinition (app_versions s')
       = map sansDefinition (app_versions s))
    ∧ (envs = [] → app_environments s' = app_environments s).
Proof.
  revert l s. induction versions as [|v versions IH]; intros l s Hv.
  - exists l, s. simpl. repeat split; auto.
  - destruct (Hv v) as (k & Hk & Hin); [left|].
    destruct (findById_is_Some AppVersion.id k (app_versions s) Hin)
      as [r Hr].
    destruct (associateVersion_spec envs sources dsos l s v k r Hk Hr)
      as (l1 & s1 & dsm & Hstep & Havm & _ & _ & _ & Happs & Hgp & Hagp
          & Hclock & Hnext & Hver & Henv & _).
    pose proof (findById_Some _ _ _ _ Hr) as [_ Hrk].
    assert (Hids : map AppVersion.id (app_versions s1)
                   = map AppVersion.id (app_versions s)).
    { rewrite Hver. by apply updateWhereId_same_id. }
    destruct (IH l1 s1) as (l' & s' & Hrest & Havm' & Happs' & Hgp' & Hagp'
                            & Hclock' & Hnext' & Hids' & Hsans' & Henv').
    { intros v' Hv'. destruct (Hv v') as (k' & Hk' & Hin'); [by right|].
      exists k'. by rewrite Havm, Hids. }
    exists l', s'. cbn [forEach]. rewrite Hstep.
    split; [exact Hrest|].
    split; [congruence|]. split; [congruence|]. split; [congruence|].
    split; [congruence|]. split; [congruence|]. split; [lia|].
    split; [congruence|].
    split.
    + intros Hnd. rewrite Hsans' by (by rewrite Hids).
      rewrite Hver.
      rewrite (updateWhereId_found AppVersion.id k
                 (AppVersion.set_definition _) _ _ Hnd Hr).
      by apply sansDefinition_update.
    + intros ->. rewrite Henv' by done. rewrite Henv.
      unfold newEnvironments. simpl. by rewrite app_nil_r.
Qed.

(** *** The whole of [buildImportedAppAssociations] *)

Lemma versionMapping_other avm n w versions x :
  x ∉ map VersionParams.id versions →
  versionMapping avm n w versions !! x = avm !! x.
Proof.
  revert avm n. induction versions as [|v versions IH]; intros avm n Hx;
    simpl; [done|].
  simpl in Hx. rewrite not_elem_of_cons in Hx. destruct Hx as [Hne Hx].
  rewrite IH by done. by rewrite lookup_insert_ne.
Qed.

Lemma versionMapping_lookup avm n w versions x :
  x ∈ map VersionParams.id versions →
  ∃ i, i < length versions ∧ versionMapping avm n w versions !! x = Some (n + w * i).
Proof.
  revert avm n. induction versions as [|v versions IH]; intros avm n Hx; simpl.
  - by apply elem_of_nil in Hx.
  - destruct (decide (x ∈ map VersionParams.id versions)) as [Hin|Hout].
    + destruct (IH (<[VersionParams.id v := n]> avm) (n + w) Hin)
        as (i & Hi & Hl).
      exists (S i). split; [lia|]. rewrite Hl. f_equal.
      rewrite Nat.mul_succ_r. lia.
    + simpl in Hx. apply elem_of_cons in Hx as [->|Hx]; [|done].
      exists 0. split; [lia|]. rewrite versionMapping_other by done.
      rewrite lookup_insert_eq. f_equal. lia.
Qed.

Lemma newVersions_ids importedApp n w c versions :
  map AppVersion.id (newVersions importedApp n w c versions)
  = map (λ i, n + w * i) (seq 0 (length versions)).
Proof.
  unfold newVersions.
  change (imap (λ i v, AppVersion.mk (n + w * i) (App.id importedApp)
                  (VersionParams.definition v) (VersionParams.name v)
                  (c + i) (c + i)) versions)
    with (imap (λ i v, (λ j, AppVersion.mk (n + w * j) (App.id importedApp)
                  (VersionParams.definition v) (VersionParams.name v)
                  (c + j) (c + j)) (0 + i)) versions).
  generalize 0 as k.
  induction versions as [|v versions IH]; intros k; simpl; [done|].
  f_equal; [f_equal; lia|].
  rewrite <- IH. f_equal. apply imap_ext. intros i x _. simpl.
  f_equal; f_equal; lia.
Qed.

Lemma newVersions_elem importedApp n w c versions i :
  i < length versions →
  n + w * i ∈ map AppVersion.id (newVersions importedApp n w c versions).
Proof.
  intros Hi. rewrite newVersions_ids.
  apply list_elem_of_In, in_map_iff. exists i. split; [done|].
  apply in_seq. lia.
Qed.

Lemma newVersions_ids_ge importedApp n w c versions k :
  k ∈ map AppVersion.id (newVersions importedApp n w c versions) → n ≤ k.
Proof.
  rewrite newVersions_ids. intros H. apply list_elem_of_In, in_map_iff in H.
  destruct H as (i & <- & _). lia.
Qed.

Lemma newVersions_NoDup importedApp n w c versions :
  0 < w → NoDup (map AppVersion.id (newVersions importedApp n w c versions)).
Proof.
  intros Hw. rewrite newVersions_ids.
  apply NoDup_ListNoDup, Finite.Injective_map_NoDup; [|apply seq_NoDup].
  intros i j Hij. nia.
Qed.

Lemma idsPerVersion_pos envs : 0 < idsPerVersion envs.
Proof. unfold idsPerVersion. destruct (length envs =? 0); lia. Qed.

Lemma versionKey_sans rows rows' :
  map sansDefinition rows' = map sansDefinition rows →
  map versionKey rows' = map versionKey rows.
Proof.
  intros H. apply (f_equal (map versionKey)) in H.
  rewrite !map_map in H. exact H.
Qed.

Lemma setEditingVersionAsLatestVersion_spec avm versions s :
  let s' := setEditingVersionAsLatestVersion avm versions s in
  apps s' = apps s
  ∧ app_environments s' = app_environments s
  ∧ data_sources s' = data_sources s
  ∧ data_source_options s' = data_source_options s
  ∧ data_queries s' = data_queries s
  ∧ group_permissions s' = group_permissions s
  ∧ app_group_permissions s' = app_group_permissions s
  ∧ nextId s' = nextId s
  ∧ map versionKey (app_versions s') = map versionKey (app_versions s)
  ∧ map AppVersion.definition (app_versions s')
    = map AppVersion.definition (app_versions s).
Proof.
  cbn zeta. unfold setEditingVersionAsLatestVersion.
  destruct (last versions) as [v|]; [|by repeat split].
  destruct (avm !! VersionParams.id v) as [k|]; simpl; [|by repeat split].
  repeat split; unfold updateWhereId; rewrite map_map; apply map_ext;
    intros x; by destruct (AppVersion.id x =? k).
Qed.

Lemma buildImportedAppAssociations_spec importedApp o s :
  let versions := default [] (AppParams.appVersions o) in
  let envs := default [] (AppParams.appEnvironments o) in
  let w := idsPerVersion envs in
  ∃ s',
    buildImportedAppAssociations dataSourcesService importedApp o s = inr s'
    ∧ apps s'
      = currentVersionUpdates importedApp (AppParams.currentVersionId o)
          (nextId s) w versions (apps s)
    ∧ group_permissions s' = group_permissions s
    ∧ app_group_permissions s' = app_group_permissions s
    ∧ nextId s ≤ nextId s'
    ∧ map AppVersion.id (app_versions s')
      = map AppVersion.id
          (app_versions s ++ newVersions importedApp (nextId s) w (clock s) versions)
    ∧ (NoDup (map AppVersion.id (app_versions s)) →
       (∀ v, v ∈ app_versions s → AppVersion.id v < nextId s) →
       map versionKey (app_versions s')
       = map versionKey
           (app_versions s
            ++ newVersions importedApp (nextId s) w (clock s) versions))
    ∧ (envs = [] →
       app_environments s'
       = app_environments s ++ defaultEnvironments envs (nextId s) versions).
Proof.
  cbn zeta. unfold buildImportedAppAssociations.
  rewrite createVersion_fold. cbn zeta.
  set (versions := default [] (AppParams.appVersions o)).
  set (envs := default [] (AppParams.appEnvironments o)).
  set (w := idsPerVersion envs).
  match goal with
  | |- context [forEach ?f (?l, ?s1) versions] =>
      destruct (associateVersions_spec envs
                  (default [] (AppParams.dataSources o))
                  (default [] (AppParams.dataSourceOptions o)) versions l s1)
        as (l' & s2 & Hrun & Havm & Happs & Hgp & Hagp & Hclock & Hnext
            & Hids & Hsans & Henv)
  end.
  { intros v Hv. simpl.
    destruct (versionMapping_lookup ∅ (nextId s) w versions
                (VersionParams.id v)) as (i & Hi & Hl).
    { apply list_elem_of_In, in_map, list_elem_of_In, Hv. }
    exists (nextId s + w * i). split; [exact Hl|].
    rewrite map_app. apply elem_of_app. right. by apply newVersions_elem. }
  rewrite Hrun.
  pose proof (setEditingVersionAsLatestVersion_spec
                (Locals.appVersionMapping l') versions s2) as HE.
  cbn zeta in HE.
  destruct HE as (E1 & E2 & _ & _ & _ & E6 & E7 & E8 & E9 & _).
  eexists. split; [reflexivity|].
  simpl in *.
  split; [congruence|]. split; [congruence|]. split; [congruence|].
  split; [lia|].
  split.
  { apply (f_equal (map (λ key, key.1.1))) in E9. rewrite !map_map in E9.
    simpl in E9. etransitivity; [exact E9|]. exact Hids. }
  split.
  { intros Hnd Hlt. rewrite E9. apply versionKey_sans, Hsans.
    rewrite map_app. apply NoDup_app. split; [exact Hnd|].
    split; [|apply newVersions_NoDup, idsPerVersion_pos].
    intros k Hk Hk'. apply newVersions_ids_ge in Hk'.
    apply list_elem_of_In, in_map_iff in Hk as (v & <- & Hv).
    apply list_elem_of_In, Hlt in Hv. lia. }
  intros Hnil. rewrite E2. apply Henv, Hnil.
Qed.

End Loops.

(** ** [import] on a snapshot object *)

Section ImportedApp.

Variable dataSourcesService : DataSourcesService.

Lemma updateWhereId_none {A} (getId : A → Id) k f (rows : list A) :
  (∀ x, x ∈ rows → getId x ≠ k) → updateWhereId getId k f rows = rows.
Proof.
  intros H. unfold updateWhereId. rewrite <- (map_id rows) at 2.
  apply map_ext_in. intros x Hx. apply list_elem_of_In, H in Hx.
  apply Nat.eqb_neq in Hx. by rewrite Hx.
Qed.

Lemma findById_app_skip {A} (getId : A → Id) k (rows rows' : list A) :
  (∀ x, x ∈ rows → getId x ≠ k) →
  findById getId k (rows ++ rows') = findById getId k rows'.
Proof.
  unfold findById. induction rows as [|x rows IH]; intros H; simpl; [done|].
  assert (getId x ≠ k) as Hx by (apply H; left).
  apply Nat.eqb_neq in Hx. rewrite Hx. apply IH.
  intros y Hy. apply H. by right.
Qed.

Lemma updateWhereId_last {A} (getId : A → Id) k f (rows : list A) x :
  (∀ y, y ∈ rows → getId y ≠ k) → getId x = k →
  updateWhereId getId k f (rows ++ [x]) = rows ++ [f x].
Proof.
  intros H Hx. unfold updateWhereId. rewrite map_app.
  fold (updateWhereId getId k f rows). rewrite updateWhereId_none by done.
  simpl. apply Nat.eqb_eq in Hx. by rewrite Hx.
Qed.

Lemma createAdminGroupPermissions_spec app s :
  createAdminGroupPermissions app s
  = mkStore (apps s) (app_versions s) (app_environments s) (data_sources s)
      (data_source_options s) (data_queries s) (group_permissions s)
      (app_group_permissions s ++ adminGrants app s)
      (nextId s + length (adminGrants app s)) (clock s).
Proof.
  unfold createAdminGroupPermissions, adminGrants, adminGroups.
  destruct (List.filter _ (group_permissions s)); simpl.
  - destruct s; simpl. rewrite app_nil_r. f_equal. lia.
  - unfold bumpId, with_app_group_permissions; simpl. f_equal. lia.
Qed.

Lemma matches_same a : App.matches a a = true.
Proof.
  unfold App.matches. rewrite !Nat.eqb_refl, !bool_decide_eq_true_2 by done.
  by destruct (App.isPublic a).
Qed.

Lemma matches_id criteria row :
  App.matches criteria row = true → App.id row = App.id criteria.
Proof.
  unfold App.matches. rewrite !andb_true_iff, Nat.eqb_eq. tauto.
Qed.

Lemma matches_currentVersionId criteria row :
  App.matches criteria row = true →
  App.currentVersionId row = App.currentVersionId criteria.
Proof.
  unfold App.matches. rewrite !andb_true_iff, !bool_decide_eq_true. tauto.
Qed.

(** Once no row holds what the application holds in memory, the updates
    select nothing. *)
Lemma currentVersionUpdates_no_match importedApp cur n w versions rows :
  (∀ a, a ∈ rows → App.matches importedApp a = false) →
  currentVersionUpdates importedApp cur n w versions rows = rows.
Proof.
  revert n rows. induction versions as [|v versions IH]; intros n rows H;
    simpl; [done|].
  assert (Hsame : updateWhere (App.matches importedApp)
                    (App.set_currentVersionId (Some n)) rows = rows).
  { unfold updateWhere. rewrite <- (map_id rows) at 2. apply map_ext_in.
    intros a Ha. apply list_elem_of_In, H in Ha. by rewrite Ha. }
  destruct (isCurrent cur v); rewrite ?Hsame; by apply IH.
Qed.

(** The first update selects the new application's row; the row then
    differs from the application in memory, whose pointer is still unset,
    and the later updates select nothing. *)
Lemma currentVersionUpdates_last importedApp cur n w versions rows :
  App.currentVersionId importedApp = None →
  (∀ a, a ∈ rows → App.id a ≠ App.id importedApp) →
  currentVersionUpdates importedApp cur n w versions (rows ++ [importedApp])
  = rows
    ++ [App.set_currentVersionId (importedCurrentVersion cur n w versions)
          importedApp].
Proof.
  intros Hnone Hrows. revert n.
  induction versions as [|v versions IH]; intros n; simpl.
  - destruct importedApp; simpl in *. by subst.
  - destruct (isCurrent cur v); [|apply IH].
    assert (Hupd : updateWhere (App.matches importedApp)
                     (App.set_currentVersionId (Some n))
                     (rows ++ [importedApp])
                   = rows ++ [App.set_currentVersionId (Some n) importedApp]).
    { unfold updateWhere. rewrite map_app. simpl. rewrite matches_same.
      f_equal. rewrite <- (map_id rows) at 2. apply map_ext_in.
      intros a Ha. apply list_elem_of_In, Hrows in Ha.
      destruct (App.matches importedApp a) eqn:E; [|done].
      apply matches_id in E. done. }
    rewrite Hupd. apply currentVersionUpdates_no_match.
    intros a Ha. apply elem_of_app in Ha as [Ha|Ha].
    + destruct (App.matches importedApp a) eqn:E; [|done].
      apply matches_id in E. by apply Hrows in Ha.
    + apply list_elem_of_singleton in Ha as ->.
      destruct (App.matches importedApp _) eqn:E; [|done].
      apply matches_currentVersionId in E. simpl in E. congruence.
Qed.

Lemma import_object_spec user o s :
  (∀ a, a ∈ apps s → App.id a < nextId s) →
  let shell :=
    App.mk (nextId s) (AppParams.name o) (User.organizationId user)
      (User.id user) None false None in
  ∃ s1,
    buildImportedAppAssociations dataSourcesService shell o
      (bumpId (with_apps (λ t, t ++ [shell]) s)) = inr s1
    ∧ import dataSourcesService user (JsObject o) s
      = (inr (importedAppOf user o s),
         with_apps (λ _, apps s ++ [importedAppOf user o s])
           (createAdminGroupPermissions shell s1)).
Proof.
  intros Hwf. cbn zeta.
  set (shell := App.mk (nextId s) (AppParams.name o) (User.organizationId user)
                  (User.id user) None false None).
  destruct (buildImportedAppAssociations_spec dataSourcesService shell o
              (bumpId (with_apps (λ t, t ++ [shell]) s)))
    as (s1 & Hb & Happs & _).
  exists s1. split; [exact Hb|].
  unfold import, dbTransactionWrap. simpl.
  fold shell. rewrite Hb.
  rewrite createAdminGroupPermissions_spec. simpl.
  simpl in Happs. rewrite Happs.
  assert (Hne : ∀ x, x ∈ apps s → App.id x ≠ nextId s).
  { intros x Hx. apply Hwf in Hx. lia. }
  rewrite currentVersionUpdates_last by done.
  set (cur := importedCurrentVersion _ _ _ _).
  rewrite findById_app_skip by done.
  unfold findById. cbn [List.find App.set_currentVersionId App.id shell].
  rewrite Nat.eqb_refl.
  unfold importedAppOf. fold cur.
  cbn [App.set_slug App.set_currentVersionId App.id App.name
       App.organizationId App.userId App.isPublic App.currentVersionId App.slug
       shell].
  f_equal. unfold with_apps. cbn [apps app_versions app_environments
    data_sources data_source_options data_queries group_permissions
    app_group_permissions nextId clock].
  f_equal. by rewrite updateWhereId_last.
Qed.

End ImportedApp.

(** ** Stores whose ids came from the store's own sequence *)

Lemma freshIds_no_rows s :
  apps s = [] → app_versions s = [] → app_environments s = [] →
  app_group_permissions s = [] → freshIds s.
Proof.
  intros H1 H2 H3 H4.
  split; rewrite ?H1, ?H2, ?H3, ?H4; try (intros ? H; by apply elem_of_nil in H).
  - constructor.
  - intros ? ? H. by apply elem_of_nil in H.
Qed.

Section Failures.

Variable dataSourcesService : DataSourcesService.

(** *** Invalid input *)

(** Every value whose [typeof] is not ['object'] is rejected before the
    transaction starts, and the store is left as it was. *)
Lemma import_rejects_non_object user appParams s :
  typeof appParams ≠ "object" →
  import dataSourcesService user appParams s
  = (inl (BadRequestException "Invalid params for app import"), s).
Proof.
  intros H. unfold import.
  destruct appParams; simpl in *; try reflexivity; by destruct H.
Qed.

(** C4: [null] is not a structured object, yet [typeof null] is ['object']:
    the guard lets it through and [import] fails inside the transaction with
    a TypeError (reading [appParams.name]), not with the Invalid Input
    error.  The store is unchanged. *)
Theorem import_null_is_type_error user s :
  typeof JsNull = "object"
  ∧ import dataSourcesService user JsNull s = (inl TypeError, s)
  ∧ import dataSourcesService user (JsString "snapshot") s
    = (inl (BadRequestException "Invalid params for app import"), s).
Proof. repeat split. Qed.

(** *** Export of an application of another organization *)

Lemma filter_none {A} (f : A → bool) (l : list A) :
  (∀ x, x ∈ l → f x = false) → List.filter f l = [].
Proof.
  induction l as [|x l IH]; intros H; simpl; [done|].
  rewrite (H x) by left. apply IH. intros y Hy. apply H. by right.
Qed.

(** C5 (amended): when the given application id does not belong to the
    requesting user's organization, export fails and returns no snapshot;
    the error is the TypeError raised on reading [appToExport.id] of the
    record [getOne] did not find, not NotFound. *)
Theorem export_foreign_application user id s :
  (∀ a, a ∈ apps s → App.id a = id →
        App.organizationId a ≠ User.organizationId user) →
  export user id s = inl TypeError.
Proof.
  intros H. unfold export. rewrite filter_none; [done|].
  intros a Ha. destruct (App.id a =? id) eqn:E; [|done].
  apply Nat.eqb_eq in E. simpl. apply Nat.eqb_neq. by apply H.
Qed.

End Failures.

(** C5, as stated, fails: application 1 belongs to organization 10, the
    requester to organization 20, and the export fails with a TypeError, not
    with NotFound. *)
Lemma export_foreign_application_not_notfound :
  export foreignUser 1 foreignStore = inl TypeError
  ∧ ∀ message,
      export foreignUser 1 foreignStore ≠ inl (NotFoundException message).
Proof. split; [reflexivity|discriminate]. Qed.

Lemma export_foreign_application_witness :
  export foreignUser 1 foreignStore = inl TypeError.
Proof.
  apply (export_foreign_application foreignUser 1 foreignStore).
  intros a Ha _. apply list_elem_of_singleton in Ha as ->. discriminate.
Defined.

(** *** Export of an application of the requester's organization *)

(** C1: no snapshot is ever produced by export, so none can be imported
    again.  For an application that exists and belongs to the requester's
    organization the read transaction reaches the query for the data-source
    options, whose condition names the placeholder [:environmentId] while
    the list of environment ids is given under the key [versionId]; the
    query is rejected and export throws a QueryFailedError. *)
Theorem export_of_owned_application_fails user id s a :
  a ∈ apps s →
  App.id a = id →
  App.organizationId a = User.organizationId user →
  export user id s = inl QueryFailedError
  ∧ ∀ e, export user id s ≠ inr e.
Proof.
  intros Ha Hid Horg.
  assert (Hfail : export user id s = inl QueryFailedError).
  { unfold export.
    destruct (List.filter _ (apps s)) as [|a' l] eqn:Hf.
    - exfalso.
      assert (Hin : In a (List.filter
                            (λ a, (App.id a =? id)
                                  && (App.organizationId a
                                      =? User.organizationId user))
                            (apps s))).
      { apply filter_In. split; [by apply list_elem_of_In|].
        apply andb_true_iff. by rewrite !Nat.eqb_eq. }
      by rewrite Hf in Hin.
    - reflexivity. }
  split; [exact Hfail|]. intros e. by rewrite Hfail.
Qed.

Lemma export_of_owned_application_fails_witness :
  export (User.mk 3 10) 1 oneVersionStore = inl QueryFailedError.
Proof.
  apply (export_of_owned_application_fails (User.mk 3 10) 1 oneVersionStore
           (App.mk 1 (Some "crm") 10 3 (Some 1) false (Some 2)));
    [left | reflexivity | reflexivity].
Defined.

(** *** Legacy inline options *)

(** C3: on the legacy snapshot the importer creates the data source with the
    new id 103 and exactly one DataSourceOptions row, bound to the
    synthesized default environment 102 and carrying the converted options;
    but the row's data source reference is 5, the id the source had in the
    snapshot, not the new id 103. *)
Theorem legacy_options_row_keeps_original_source_id :
  data_sources (import plainOptions (User.mk 1 10) (JsObject legacySnapshot)
                  legacyStore).2
  = [DataSource.mk 103 (Some "db") (Some "postgresql") (Some 101)]
  ∧ app_environments (import plainOptions (User.mk 1 10)
                        (JsObject legacySnapshot) legacyStore).2
    = [AppEnvironment.mk 102 (Some 101) (Some "production") (Some true)]
  ∧ data_source_options (import plainOptions (User.mk 1 10)
                           (JsObject legacySnapshot) legacyStore).2
    = [DataSourceOptions.mk 104 (Some 102) (Some 5)
         (Some [("host", ("a", false))])].
Proof. repeat split; vm_compute; reflexivity. Qed.

Section Seeding.

Variable dataSourcesService : DataSourcesService.

(** *** An empty version list *)

Lemma buildImportedAppAssociations_no_versions importedApp o s :
  default [] (AppParams.appVersions o) = [] →
  buildImportedAppAssociations dataSourcesService importedApp o s = inr s.
Proof.
  intros H. unfold buildImportedAppAssociations. rewrite H. reflexivity.
Qed.

(** C10: for a snapshot object whose version list is empty (or missing),
    import succeeds; the only application added is the shell application,
    and no version, environment, data source, data-source options row or
    data query is created; no version's timestamp is touched (the version
    table and the clock are as before, [setEditingVersionAsLatestVersion]
    returning at once); and the application's slug is its own new id. *)
Theorem import_without_versions user o s :
  freshIds s →
  default [] (AppParams.appVersions o) = [] →
  ∃ app s',
    import dataSourcesService user (JsObject o) s = (inr app, s')
    ∧ App.id app = nextId s
    ∧ App.slug app = Some (App.id app)
    ∧ apps s' = apps s ++ [app]
    ∧ app_versions s' = app_versions s
    ∧ app_environments s' = app_environments s
    ∧ data_sources s' = data_sources s
    ∧ data_source_options s' = data_source_options s
    ∧ data_queries s' = data_queries s
    ∧ clock s' = clock s
    ∧ (∀ m st, setEditingVersionAsLatestVersion m [] st = st).
Proof.
  intros Hwf Hv.
  destruct (import_object_spec dataSourcesService user o s (fresh_apps s Hwf))
    as (s1 & Hb & Hi).
  rewrite buildImportedAppAssociations_no_versions in Hb by done.
  injection Hb as <-.
  eexists _, _. split; [exact Hi|].
  rewrite createAdminGroupPermissions_spec. simpl. repeat split.
Qed.

(** *** The admin group's grant *)

Lemma filter_app_none {A} (f : A → bool) (l l' : list A) :
  (∀ x, x ∈ l → f x = false) → List.filter f (l ++ l') = List.filter f l'.
Proof.
  intros H. rewrite List.filter_app, filter_none by done. reflexivity.
Qed.

(** C7: when the importing user's organization has at least one admin
    group, the seeder persists one grant, for the first admin group, with
    read, update and delete all true, linking that group to the new
    application, and returns; whatever the number of admin groups, that is
    the one grant of the new application after import. *)
Theorem admin_grant_for_first_group_only user o s g rest :
  freshIds s →
  adminGroups (User.organizationId user) s = g :: rest →
  ∃ app s' grantId,
    import dataSourcesService user (JsObject o) s = (inr app, s')
    ∧ List.filter (λ p, AppGroupPermission.appId p =? App.id app)
        (app_group_permissions s')
      = [AppGroupPermission.mk grantId (GroupPermission.id g) (App.id app)
           true true true]
    ∧ length (app_group_permissions s')
      = S (length (app_group_permissions s)).
Proof.
  intros Hwf Hg.
  destruct (import_object_spec dataSourcesService user o s (fresh_apps s Hwf))
    as (s1 & Hb & Hi).
  match type of Hb with
  | buildImportedAppAssociations _ ?a _ ?st = _ =>
      destruct (buildImportedAppAssociations_spec dataSourcesService a o st)
        as (s1' & Hb' & _ & Hgp & Hagp & _)
  end.
  rewrite Hb in Hb'. injection Hb' as <-. simpl in Hgp, Hagp.
  eexists _, _, (nextId s1). split; [exact Hi|].
  rewrite createAdminGroupPermissions_spec. simpl.
  unfold adminGrants, adminGroups. rewrite Hgp. simpl.
  unfold adminGroups in Hg. rewrite Hg, Hagp.
  split.
  - rewrite filter_app_none.
    + simpl. by rewrite Nat.eqb_refl.
    + intros p Hp. apply (fresh_grants s Hwf) in Hp.
      apply Nat.eqb_neq. lia.
  - rewrite length_app. simpl. lia.
Qed.

End Seeding.

Lemma import_without_versions_witness :
  ∃ app s',
    import plainOptions (User.mk 1 10) (JsObject AppParams.empty) twoAdminGroups
    = (inr app, s')
    ∧ App.slug app = Some (App.id app)
    ∧ apps s' = [app]
    ∧ app_versions s' = [].
Proof.
  destruct (import_without_versions plainOptions (User.mk 1 10) AppParams.empty
              twoAdminGroups
              (freshIds_no_rows twoAdminGroups eq_refl eq_refl eq_refl eq_refl)
              eq_refl)
    as (app & s' & H1 & _ & H2 & H3 & H4 & _).
  exists app, s'. auto.
Defined.

Lemma admin_grant_for_first_group_only_witness :
  ∃ app s' grantId,
    import plainOptions (User.mk 1 10) (JsObject legacySnapshot) twoAdminGroups
    = (inr app, s')
    ∧ List.filter (λ p, AppGroupPermission.appId p =? App.id app)
        (app_group_permissions s')
      = [AppGroupPermission.mk grantId 50 (App.id app) true true true].
Proof.
  destruct (admin_grant_for_first_group_only plainOptions (User.mk 1 10)
              legacySnapshot twoAdminGroups (GroupPermission.mk 50 10 "admin")
              [GroupPermission.mk 51 10 "admin"]
              (freshIds_no_rows twoAdminGroups eq_refl eq_refl eq_refl eq_refl)
              eq_refl)
    as (app & s' & grantId & H1 & H2 & _).
  exists app, s', grantId. auto.
Defined.

Section DefaultEnvironment.

Variable dataSourcesService : DataSourcesService.

(** *** The synthesized default environment *)

Lemma newVersions_key importedApp n w c versions key :
  key ∈ map versionKey (newVersions importedApp n w c versions) →
  ∃ i v, versions !! i = Some v
         ∧ key = (n + w * i, App.id importedApp, VersionParams.name v).
Proof.
  intros H. apply list_elem_of_In, in_map_iff in H as (row & <- & H).
  apply list_elem_of_In, elem_of_lookup_imap in H as (i & v & -> & Hv).
  by exists i, v.
Qed.

Lemma productionEnvironments_cons n v versions :
  productionEnvironments n (v :: versions)
  = AppEnvironment.mk (n + 1) (Some n) (Some "production") (Some true)
    :: productionEnvironments (n + 2) versions.
Proof.
  unfold productionEnvironments. simpl. f_equal.
  - f_equal; [lia|f_equal; lia].
  - apply imap_ext. intros i x _. simpl. f_equal; [lia|f_equal; lia].
Qed.

Lemma productionEnvironments_below n versions k :
  k < n → List.filter (environmentOf k) (productionEnvironments n versions) = [].
Proof.
  revert n. induction versions as [|v versions IH]; intros n Hk; [done|].
  rewrite productionEnvironments_cons. cbn [List.filter].
  unfold environmentOf at 1. cbn [AppEnvironment.appVersionId].
  rewrite bool_decide_eq_false_2 by (intros [=]; lia).
  apply IH. lia.
Qed.

Lemma productionEnvironments_one n versions i :
  i < length versions →
  List.filter (environmentOf (n + 2 * i)) (productionEnvironments n versions)
  = [AppEnvironment.mk (n + 2 * i + 1) (Some (n + 2 * i)) (Some "production")
       (Some true)].
Proof.
  revert n i. induction versions as [|v versions IH]; intros n i Hi; simpl in Hi;
    [lia|].
  rewrite productionEnvironments_cons. cbn [List.filter].
  unfold environmentOf at 1. cbn [AppEnvironment.appVersionId].
  destruct i as [|i].
  - rewrite bool_decide_eq_true_2 by (f_equal; lia).
    rewrite productionEnvironments_below by lia.
    do 2 f_equal; [lia|f_equal; lia].
  - rewrite bool_decide_eq_false_2 by (intros [=]; lia).
    replace (n + 2 * S i) with (n + 2 + 2 * i) by lia.
    apply IH. lia.
Qed.

(** C6: when the input has no environment entries at all, import succeeds,
    creates one version per input version, and each created version (each
    version of the new application) has exactly one environment, which is
    named "production" and has its is-default flag set. *)
Theorem one_production_environment_per_version user o s :
  freshIds s →
  default [] (AppParams.appEnvironments o) = [] →
  ∃ app s',
    import dataSourcesService user (JsObject o) s = (inr app, s')
    ∧ length (List.filter (λ v, AppVersion.appId v =? App.id app)
                (app_versions s'))
      = length (default [] (AppParams.appVersions o))
    ∧ ∀ v, v ∈ app_versions s' →
        AppVersion.appId v = App.id app →
        ∃ env,
          List.filter (environmentOf (AppVersion.id v)) (app_environments s')
          = [env]
          ∧ AppEnvironment.name env = Some "production"
          ∧ AppEnvironment.isDefault env = Some true.
Proof.
  intros Hwf He.
  destruct (import_object_spec dataSourcesService user o s (fresh_apps s Hwf))
    as (s1 & Hb & Hi).
  match type of Hb with
  | buildImportedAppAssociations _ ?a _ ?st = _ =>
      destruct (buildImportedAppAssociations_spec dataSourcesService a o st)
        as (s1' & Hb' & _ & _ & _ & _ & _ & Hkey & Henv)
  end.
  rewrite Hb in Hb'. injection Hb' as <-.
  cbn zeta in Hkey, Henv. rewrite He in Hkey, Henv. simpl in Hkey, Henv.
  specialize (Henv eq_refl).
  assert (Henvs : app_environments s1
                  = app_environments s
                    ++ productionEnvironments (S (nextId s))
                         (default [] (AppParams.appVersions o)))
    by (rewrite Henv; reflexivity).
  clear Henv.
  assert (Hkeys : map versionKey (app_versions s1)
                  = map versionKey
                      (app_versions s
                       ++ newVersions
                            (App.mk (nextId s) (AppParams.name o)
                               (User.organizationId user) (User.id user) None
                               false None)
                            (S (nextId s)) 2 (clock s)
                            (default [] (AppParams.appVersions o)))).
  { apply Hkey; [apply (fresh_version_keys s Hwf)|].
    intros v Hv. apply (fresh_versions s Hwf) in Hv. lia. }
  clear Hkey.
  eexists _, _. split; [exact Hi|].
  rewrite createAdminGroupPermissions_spec. simpl.
  split.
  - transitivity (length (List.filter (λ key : Id * Id * option string,
                                          key.1.2 =? nextId s)
                            (map versionKey (app_versions s1)))).
    { clear. induction (app_versions s1) as [|v l IH]; simpl; [done|].
      destruct (AppVersion.appId v =? nextId s); simpl; by rewrite IH. }
    rewrite Hkeys, map_app, filter_app_none.
    + rewrite forallb_filter_id.
      * rewrite length_map. unfold newVersions. apply length_imap.
      * apply forallb_forall. intros key Hk.
        apply list_elem_of_In, newVersions_key in Hk as (i & v & _ & ->).
        simpl. apply Nat.eqb_refl.
    + intros key Hk. apply list_elem_of_In, in_map_iff in Hk as (v & <- & Hv).
      apply list_elem_of_In, (fresh_version_apps s Hwf) in Hv.
      simpl. apply Nat.eqb_neq. lia.
  - intros v Hv Happ. simpl in Happ.
    assert (Hk : versionKey v ∈ map versionKey (app_versions s1)).
    { apply list_elem_of_In, in_map, list_elem_of_In, Hv. }
    rewrite Hkeys, map_app in Hk. apply elem_of_app in Hk as [Hk|Hk].
    + apply list_elem_of_In, in_map_iff in Hk as (v0 & Hkey0 & Hv0).
      apply list_elem_of_In, (fresh_version_apps s Hwf) in Hv0.
      injection Hkey0 as _ Heq _. lia.
    + apply newVersions_key in Hk as (i & v0 & Hv0 & Hkey0).
      assert (Hid : AppVersion.id v = S (nextId s) + 2 * i)
        by (by injection Hkey0).
      apply lookup_lt_Some in Hv0.
      eexists. rewrite Henvs, Hid.
      rewrite filter_app_none.
      * rewrite (productionEnvironments_one (S (nextId s)) _ i Hv0).
        split; [reflexivity|].
        split; reflexivity.
      * intros e Hin. unfold environmentOf.
        apply bool_decide_eq_false_2. intros Href.
        apply (fresh_environments s Hwf e _ Hin) in Href. lia.
Qed.

End DefaultEnvironment.

Lemma one_production_environment_per_version_witness :
  ∃ app s',
    import plainOptions (User.mk 1 10) (JsObject legacySnapshot) legacyStore
    = (inr app, s')
    ∧ length (List.filter (λ v, AppVersion.appId v =? App.id app)
                (app_versions s')) = 1
    ∧ ∀ v, v ∈ app_versions s' →
        AppVersion.appId v = App.id app →
        ∃ env,
          List.filter (environmentOf (AppVersion.id v)) (app_environments s')
          = [env]
          ∧ AppEnvironment.name env = Some "production"
          ∧ AppEnvironment.isDefault env = Some true.
Proof.
  exact (one_production_environment_per_version plainOptions (User.mk 1 10)
           legacySnapshot legacyStore
           (freshIds_no_rows legacyStore eq_refl eq_refl eq_refl eq_refl)
           eq_refl).
Defined.

(** *** The current version *)

(** C8, as stated, fails.  The first import below completes, creates the
    version, and leaves the application without any current version: the
    declared id is the id of no version.  The second creates two versions
    from two input versions that both have the declared id; the pointer is
    the new id of the first, so the second input version has the declared
    id and the pointer is not its new id. *)
Lemma current_version_not_as_claimed :
  (∃ app s',
     import plainOptions (User.mk 1 10) (JsObject strayCurrentVersion)
       legacyStore = (inr app, s')
     ∧ length (app_versions s') = 1
     ∧ App.currentVersionId app = None
     ∧ length (currentVersions app s') = 0)
  ∧ ∃ app s' first second,
      import plainOptions (User.mk 1 10) (JsObject repeatedVersionId)
        legacyStore = (inr app, s')
      ∧ app_versions s' = [first; second]
      ∧ AppVersion.name second = Some "b"
      ∧ App.currentVersionId app = Some (AppVersion.id first)
      ∧ App.currentVersionId app ≠ Some (AppVersion.id second).
Proof.
  split.
  - eexists _, _. split; [vm_compute; reflexivity|]. repeat split.
  - eexists _, _, _, _. split; [vm_compute; reflexivity|].
    repeat split. discriminate.
Qed.

Section CurrentVersion.

Variable dataSourcesService : DataSourcesService.

Lemma importedCurrentVersion_none cur n w versions :
  (∀ v, v ∈ versions → isCurrent cur v = false) →
  importedCurrentVersion cur n w versions = None.
Proof.
  revert n. induction versions as [|v versions IH]; intros n H; simpl; [done|].
  rewrite (H v) by left. apply IH. intros v' Hv'. apply H. by right.
Qed.

Lemma importedCurrentVersion_first cur n w versions i v :
  versions !! i = Some v →
  isCurrent cur v = true →
  (∀ j v', j < i → versions !! j = Some v' → isCurrent cur v' = false) →
  importedCurrentVersion cur n w versions = Some (n + w * i).
Proof.
  revert n i. induction versions as [|v0 versions IH]; intros n i Hi Hc Hfirst;
    [done|].
  simpl. destruct i as [|i]; simpl in Hi.
  - injection Hi as ->. rewrite Hc. f_equal. lia.
  - rewrite (Hfirst 0 v0) by (done || lia).
    rewrite (IH (n + w) i Hi Hc).
    + f_equal. rewrite Nat.mul_succ_r. lia.
    + intros j v' Hj Hv'. apply (Hfirst (S j)); [lia|done].
Qed.

Lemma filter_map_length {A B} (g : A → B) (f : B → bool) (p : A → bool)
    (l : list A) :
  (∀ x, p x = f (g x)) →
  length (List.filter p l) = length (List.filter f (map g l)).
Proof.
  intros H. induction l as [|x l IH]; simpl; [done|].
  rewrite H. destruct (f (g x)); simpl; by rewrite IH.
Qed.

Lemma filter_key_one {A} (f : A → nat) (l : list A) x :
  NoDup (map f l) → x ∈ l →
  length (List.filter (λ y, f y =? f x) l) = 1.
Proof.
  induction l as [|a l IH]; simpl; intros Hnd Hx.
  - by apply elem_of_nil in Hx.
  - apply NoDup_cons in Hnd as [Ha Hnd].
    destruct (f a =? f x) eqn:E.
    + apply Nat.eqb_eq in E. simpl. f_equal.
      rewrite filter_none; [done|].
      intros y Hy. apply Nat.eqb_neq. intros Heq. apply Ha.
      rewrite E, <- Heq. apply list_elem_of_In, in_map, list_elem_of_In, Hy.
    + apply elem_of_cons in Hx as [->|Hx]; [by rewrite Nat.eqb_refl in E|].
      by apply IH.
Qed.

Lemma isCurrent_true cur v :
  isCurrent cur v = true ↔ cur = Some (VersionParams.id v).
Proof.
  unfold isCurrent. destruct cur as [c|]; [|done].
  rewrite Nat.eqb_eq. split; [by intros ->|by intros [= ->]].
Qed.

Lemma isCurrent_false cur v :
  isCurrent cur v = false ↔ cur ≠ Some (VersionParams.id v).
Proof.
  rewrite <- isCurrent_true. by destruct (isCurrent cur v).
Qed.

(** C8 (amended): if some input version has the declared current version
    id, the application's current-version pointer is the new id of the
    version created for the first input version with that id, and the
    application then has exactly one current version.  If no input version
    has the declared id, the application has no current version. *)
Theorem current_version_of_imported_app user o s :
  freshIds s →
  let versions := default [] (AppParams.appVersions o) in
  ∃ app s',
    import dataSourcesService user (JsObject o) s = (inr app, s')
    ∧ (∀ i v,
         versions !! i = Some v →
         AppParams.currentVersionId o = Some (VersionParams.id v) →
         (∀ j v', j < i → versions !! j = Some v' →
                  AppParams.currentVersionId o ≠ Some (VersionParams.id v')) →
         ∃ row,
           drop (length (app_versions s)) (app_versions s') !! i = Some row
           ∧ AppVersion.appId row = App.id app
           ∧ AppVersion.name row = VersionParams.name v
           ∧ App.currentVersionId app = Some (AppVersion.id row)
           ∧ length (currentVersions app s') = 1)
    ∧ ((∀ v, v ∈ versions →
             AppParams.currentVersionId o ≠ Some (VersionParams.id v)) →
       App.currentVersionId app = None ∧ currentVersions app s' = []).
Proof.
  intros Hwf versions.
  destruct (import_object_spec dataSourcesService user o s (fresh_apps s Hwf))
    as (s1 & Hb & Hi).
  match type of Hb with
  | buildImportedAppAssociations _ ?a _ ?st = _ =>
      destruct (buildImportedAppAssociations_spec dataSourcesService a o st)
        as (s1' & Hb' & _ & _ & _ & _ & _ & Hkey & _)
  end.
  rewrite Hb in Hb'. injection Hb' as <-.
  cbn zeta in Hkey. simpl in Hkey. fold versions in Hkey.
  set (w := idsPerVersion (default [] (AppParams.appEnvironments o))) in *.
  set (shell := App.mk (nextId s) (AppParams.name o)
                  (User.organizationId user) (User.id user) None false None)
    in *.
  set (new := newVersions shell (S (nextId s)) w (clock s) versions) in *.
  assert (Hkeys : map versionKey (app_versions s1)
                  = map versionKey (app_versions s ++ new)).
  { apply Hkey; [apply (fresh_version_keys s Hwf)|].
    intros v Hv. apply (fresh_versions s Hwf) in Hv. lia. }
  clear Hkey.
  eexists _, _. split; [exact Hi|].
  rewrite createAdminGroupPermissions_spec.
  unfold currentVersions, importedAppOf.
  cbn [with_apps app_versions App.currentVersionId App.id].
  fold versions. fold w.
  split.
  - intros i v Hv Hcur Hfirst.
    rewrite (importedCurrentVersion_first _ _ _ _ i v Hv).
    2: { by apply isCurrent_true. }
    2: { intros j v' Hj Hv'. apply isCurrent_false. by apply (Hfirst j). }
    assert (Hnew : new !! i
                   = Some (AppVersion.mk (S (nextId s) + w * i) (nextId s)
                             (VersionParams.definition v)
                             (VersionParams.name v) (clock s + i) (clock s + i))).
    { unfold new, newVersions. by rewrite list_lookup_imap, Hv. }
    assert (Hrow : map versionKey (drop (length (app_versions s))
                                     (app_versions s1)) !! i
                   = Some (S (nextId s) + w * i, nextId s, VersionParams.name v)).
    { rewrite <- (length_map versionKey (app_versions s)).
      rewrite <- skipn_map, Hkeys, map_app, drop_app_length.
      by rewrite lookup_map, Hnew. }
    rewrite lookup_map in Hrow.
    destruct (drop (length (app_versions s)) (app_versions s1) !! i)
      as [row|] eqn:Erow; [|done].
    injection Hrow as Hid Happ Hname.
    exists row. split; [reflexivity|]. split; [exact Happ|].
    split; [exact Hname|]. split; [by rewrite Hid|].
    clear Hid.
    set (k := S (nextId s) + w * i) in *.
    rewrite (filter_map_length versionKey
               (λ key, (key.1.2 =? nextId s)
                       && bool_decide (Some k = Some key.1.1)))
      by reflexivity.
    rewrite Hkeys, map_app, filter_app_none.
    + rewrite <- (filter_map_length versionKey
                    (λ key, (key.1.2 =? nextId s)
                            && bool_decide (Some k = Some key.1.1))
                    (λ y, (AppVersion.appId y =? nextId s)
                          && bool_decide (Some k = Some (AppVersion.id y))))
        by reflexivity.
      rewrite (filter_ext_in _
                 (λ y, AppVersion.id y
                       =? AppVersion.id
                            (AppVersion.mk k (nextId s)
                               (VersionParams.definition v)
                               (VersionParams.name v) (clock s + i)
                               (clock s + i)))).
      * apply filter_key_one.
        -- apply newVersions_NoDup, idsPerVersion_pos.
        -- apply list_elem_of_lookup. eauto.
      * intros y Hy.
        assert (Hk : versionKey y ∈ map versionKey new)
          by (apply list_elem_of_In, in_map, Hy).
        apply newVersions_key in Hk as (j & v' & _ & Hk).
        injection Hk as Hyid Hyapp _. cbn [AppVersion.id].
        rewrite Hyapp. cbn [App.id shell]. rewrite Nat.eqb_refl.
        cbn [andb].
        destruct (AppVersion.id y =? k) eqn:E.
        -- apply Nat.eqb_eq in E. apply bool_decide_eq_true_2. by rewrite E.
        -- apply Nat.eqb_neq in E. apply bool_decide_eq_false_2.
           intros [=]. lia.
    + intros key Hk. apply list_elem_of_In, in_map_iff in Hk as (v0 & <- & Hv0).
      apply list_elem_of_In, (fresh_version_apps s Hwf) in Hv0.
      simpl. apply andb_false_intro1, Nat.eqb_neq. lia.
  - intros Hnone. rewrite importedCurrentVersion_none.
    + split; [reflexivity|]. apply filter_none. intros v _.
      apply andb_false_intro2. by apply bool_decide_eq_false_2.
    + intros v Hv. apply isCurrent_false. by apply Hnone.
Qed.

End CurrentVersion.

Lemma current_version_of_imported_app_witness :
  ∃ app s' row,
    import plainOptions (User.mk 1 10) (JsObject legacySnapshot) legacyStore
    = (inr app, s')
    ∧ app_versions s' !! 0 = Some row
    ∧ AppVersion.name row = Some "v1"
    ∧ App.currentVersionId app = Some (AppVersion.id row)
    ∧ length (currentVersions app s') = 1.
Proof.
  destruct (current_version_of_imported_app plainOptions (User.mk 1 10)
              legacySnapshot legacyStore
              (freshIds_no_rows legacyStore eq_refl eq_refl eq_refl eq_refl))
    as (app & s' & H1 & H2 & _).
  destruct (H2 0 (VersionParams.mk 1 (Some "v1") None) eq_refl eq_refl)
    as (row & Ha & _ & Hb & Hc & Hd).
  { intros j v' Hj Hv'. lia. }
  exists app, s', row. auto.
Defined.

(** *** The mapping of query ids *)

Section QueryMapping.

Variable dataSourcesService : DataSourcesService.

Lemma newDataQueryMapping_range dqm n queries x k :
  newDataQueryMapping dqm n queries !! x = Some k →
  dqm !! x = Some k ∨ (n ≤ k < n + length queries).
Proof.
  revert dqm n. induction queries as [|q queries IH]; intros dqm n; simpl;
    [auto|].
  intros H. apply IH in H as [H|H]; [|right; lia].
  destruct (decide (QueryParams.id q = x)) as [Heq|Hne].
  - rewrite Heq, lookup_insert_eq in H. injection H as <-. right. lia.
  - rewrite lookup_insert_ne in H by done. auto.
Qed.

Lemma remappedQuery_ids dqm rows :
  map DataQuery.id (map (remappedQuery dqm) rows) = map DataQuery.id rows.
Proof. rewrite map_map. reflexivity. Qed.

End QueryMapping.

(** * Further properties of the service *)

(** ** Membership in mapped lists *)

Lemma elem_of_map_iff {A B} (f : A → B) (l : list A) y :
  y ∈ map f l ↔ ∃ x, x ∈ l ∧ f x = y.
Proof.
  rewrite list_elem_of_In, in_map_iff. split; intros (x & H1 & H2); exists x.
  - split; [by apply list_elem_of_In|done].
  - split; [done|by apply list_elem_of_In].
Qed.

(** ** [import]: rejection, and the application it returns *)

Section ImportOutcome.

Variable dataSourcesService : DataSourcesService.

(** X3: a value whose [typeof] is not ['object'] is rejected with
    BadRequest "Invalid params for app import", and the store is left as it
    was. *)
Theorem import_non_object_is_bad_request user appParams s :
  typeof appParams ≠ "object" →
  import dataSourcesService user appParams s
  = (inl (BadRequestException "Invalid params for app import"), s).
Proof. apply import_rejects_non_object. Qed.

(** X6: in a store whose application ids came from its own sequence, the
    import of a snapshot object returns an application that is a new row
    appended to the application table (no existing application is changed);
    it is private, belongs to the importing user and organization, carries
    the snapshot's name, and its slug is its own, fresh, id. *)
Theorem imported_app_is_new_and_private user o s :
  (∀ a, a ∈ apps s → App.id a < nextId s) →
  ∃ app s',
    import dataSourcesService user (JsObject o) s = (inr app, s')
    ∧ apps s' = apps s ++ [app]
    ∧ (∀ a, a ∈ apps s → App.id a ≠ App.id app)
    ∧ App.slug app = Some (App.id app)
    ∧ App.isPublic app = false
    ∧ App.organizationId app = User.organizationId user
    ∧ App.userId app = User.id user
    ∧ App.name app = AppParams.name o.
Proof.
  intros Hwf.
  destruct (import_object_spec dataSourcesService user o s Hwf)
    as (s1 & _ & Hi).
  eexists _, _. split; [exact Hi|].
  rewrite createAdminGroupPermissions_spec. simpl.
  repeat split. intros a Ha. apply Hwf in Ha. lia.
Qed.

End ImportOutcome.

Lemma import_non_object_is_bad_request_witness :
  import plainOptions (User.mk 1 10) (JsNumber 42) twoAdminGroups
  = (inl (BadRequestException "Invalid params for app import"), twoAdminGroups).
Proof.
  apply (import_non_object_is_bad_request plainOptions (User.mk 1 10)
           (JsNumber 42) twoAdminGroups).
  discriminate.
Defined.

Lemma imported_app_is_new_and_private_witness :
  ∃ app s',
    import plainOptions (User.mk 3 10) (JsObject legacySnapshot) twoVersionStore
    = (inr app, s')
    ∧ apps s' = apps twoVersionStore ++ [app]
    ∧ App.slug app = Some (App.id app)
    ∧ App.isPublic app = false.
Proof.
  destruct (imported_app_is_new_and_private plainOptions (User.mk 3 10)
              legacySnapshot twoVersionStore)
    as (app & s' & Hi & H1 & _ & H2 & H3 & _).
  { intros a Ha. apply list_elem_of_singleton in Ha as ->. simpl. lia. }
  exists app, s'. auto.
Defined.

(** ** What the rewriting of query ids leaves alone, and how it composes *)

Lemma replaceEventQueryId_twice (m : gmap Id Id) e :
  (∀ k v, m !! k = Some v → m !! v = None) →
  Event.queryId (replaceEventQueryId m (replaceEventQueryId m e)) = None.
Proof.
  intros Hm. unfold replaceEventQueryId at 2.
  destruct (Event.queryId e) as [q|] eqn:Hq.
  - unfold replaceEventQueryId. simpl.
    destruct (m !! q) as [v|] eqn:Hv; simpl; [by apply (Hm q)|done].
  - unfold replaceEventQueryId. by rewrite Hq.
Qed.

Lemma sansQueryId_replace m e :
  sansQueryId (replaceEventQueryId m e) = sansQueryId e.
Proof. unfold sansQueryId, replaceEventQueryId. by destruct (Event.queryId e). Qed.

Lemma sansQueryIds_replace m events :
  sansQueryIds (map (replaceEventQueryId m) <$> events) = sansQueryIds events.
Proof.
  destruct events as [events|]; [|done]. unfold sansQueryIds. simpl. f_equal.
  rewrite map_map. apply map_ext. intros e. apply sansQueryId_replace.
Qed.

Lemma componentSansQueryIds_replace m c :
  componentSansQueryIds (replaceWithinComponent m c) = componentSansQueryIds c.
Proof.
  destruct c as [kind evs acts cols].
  unfold componentSansQueryIds, replaceWithinComponent.
  cbn [Component.component Component.events Component.actions
       Component.columns].
  f_equal.
  - destruct evs as [evs|]; [|done]. apply (sansQueryIds_replace m (Some evs)).
  - destruct acts as [values|]; [|done]. simpl. f_equal.
    rewrite map_map. apply map_ext. intros [[events|] rest]; [|done].
    cbn [Action.events Action.rest]. f_equal.
    apply (sansQueryIds_replace m (Some events)).
  - destruct (decide (kind = Some "Table")); [|done].
    destruct cols as [values|]; [|done]. simpl. f_equal.
    rewrite map_map. apply map_ext. intros [[events|] rest]; [|done].
    cbn [Column.events Column.rest]. f_equal.
    apply (sansQueryIds_replace m (Some events)).
Qed.

(** X7: rewriting query ids changes nothing else.  With every query id
    forgotten, rewritten options and a rewritten definition are the
    original ones: what is absent stays absent, and the other properties of
    options, bindings, actions and columns, the component ids and kinds,
    and the number and order of components, actions, columns and bindings
    are kept.  A binding without query id is returned as it is, and so are
    the columns of a component that is not a table, query ids included. *)
Theorem remapping_changes_query_ids_only (m : gmap Id Id)
    (options : option QueryOptions.t) (definition : option AppDefinition.t) :
  optionsSansQueryIds (replaceDataQueryOptionsWithNewDataQueryIds options m)
  = optionsSansQueryIds options
  ∧ definitionSansQueryIds
      (replaceDataQueryIdWithinDefinitions definition m)
    = definitionSansQueryIds definition
  ∧ replaceDataQueryOptionsWithNewDataQueryIds None m = None
  ∧ replaceDataQueryIdWithinDefinitions None m = None
  ∧ QueryOptions.rest <$> replaceDataQueryOptionsWithNewDataQueryIds options m
    = QueryOptions.rest <$> options
  ∧ map Event.rest
      (optionsBindings (replaceDataQueryOptionsWithNewDataQueryIds options m))
    = map Event.rest (optionsBindings options)
  ∧ map Event.rest
      (definitionBindings (replaceDataQueryIdWithinDefinitions definition m))
    = map Event.rest (definitionBindings definition)
  ∧ (∀ i e, optionsBindings options !! i = Some e →
            Event.queryId e = None →
            optionsBindings
              (replaceDataQueryOptionsWithNewDataQueryIds options m) !! i
            = Some e)
  ∧ (∀ i e, definitionBindings definition !! i = Some e →
            Event.queryId e = None →
            definitionBindings
              (replaceDataQueryIdWithinDefinitions definition m) !! i
            = Some e)
  ∧ (∀ components,
       definition = Some (AppDefinition.mk (Some components)) →
       ∃ components',
         replaceDataQueryIdWithinDefinitions definition m
         = Some (AppDefinition.mk (Some components'))
         ∧ length components' = length components
         ∧ map fst components' = map fst components
         ∧ map (λ entry, Component.component entry.2) components'
           = map (λ entry, Component.component entry.2) components
         ∧ map (λ entry, length <$> Component.actions entry.2) components'
           = map (λ entry, length <$> Component.actions entry.2) components
         ∧ map (λ entry, map Action.rest <$> Component.actions entry.2)
             components'
           = map (λ entry, map Action.rest <$> Component.actions entry.2)
               components
         ∧ map (λ entry, map Column.rest <$> Component.columns entry.2)
             components'
           = map (λ entry, map Column.rest <$> Component.columns entry.2)
               components
         ∧ ∀ i key c,
             components !! i = Some (key, c) →
             Component.component c ≠ Some "Table" →
             ∃ c', components' !! i = Some (key, c')
                   ∧ Component.columns c' = Component.columns c).
Proof.
  split.
  { destruct options as [[[evs|] r]|]; try reflexivity.
    unfold optionsSansQueryIds. simpl. do 2 f_equal.
    apply (sansQueryIds_replace m (Some evs)). }
  split.
  { destruct definition as [[[components|]]|]; try reflexivity.
    unfold definitionSansQueryIds. simpl. do 3 f_equal.
    rewrite map_map. apply map_ext. intros [key c]. simpl. f_equal.
    apply componentSansQueryIds_replace. }
  split; [done|]. split; [done|].
  split; [by destruct options as [[[evs|] r]|]|].
  split.
  { rewrite optionsBindings_replace, map_map. apply map_ext.
    intros e. apply replaceEventQueryId_rest. }
  split.
  { rewrite definitionBindings_replace, map_map. apply map_ext.
    intros e. apply replaceEventQueryId_rest. }
  split.
  { intros i e Hi He. rewrite optionsBindings_replace, lookup_map, Hi. simpl.
    by rewrite replaceEventQueryId_absent. }
  split.
  { intros i e Hi He. rewrite definitionBindings_replace, lookup_map, Hi.
    simpl. by rewrite replaceEventQueryId_absent. }
  intros components ->. eexists. split; [reflexivity|].
  split; [by rewrite length_map|].
  rewrite !map_map.
  split; [reflexivity|]. split; [reflexivity|].
  split.
  { apply map_ext. intros [key [kind evs [values|] cols]]; [|done].
    simpl. by rewrite length_map. }
  split.
  { apply map_ext. intros [key [kind evs [values|] cols]]; [|done].
    simpl. f_equal. rewrite map_map. apply map_ext.
    by intros [[events|] rest]. }
  split.
  { apply map_ext. intros [key [kind evs acts cols]].
    unfold replaceWithinComponent. simpl.
    destruct (decide (kind = Some "Table")); [|done].
    destruct cols as [values|]; [|done]. simpl. f_equal.
    rewrite map_map. apply map_ext. by intros [[events|] rest]. }
  intros i key c Hi Hkind. exists (replaceWithinComponent m c).
  split; [by rewrite lookup_map, Hi|].
  unfold replaceWithinComponent. simpl.
  by destruct (decide (Component.component c = Some "Table")).
Qed.

(** X8: rewriting is not idempotent.  With a mapping none of whose new ids
    is itself an old id, rewriting what was already rewritten leaves no
    binding with a query id: in options and in definitions alike. *)
Theorem remapping_twice_clears_query_ids (m : gmap Id Id)
    (options : option QueryOptions.t) (definition : option AppDefinition.t) :
  (∀ k v, m !! k = Some v → m !! v = None) →
  (∀ b, b ∈ optionsBindings
              (replaceDataQueryOptionsWithNewDataQueryIds
                 (replaceDataQueryOptionsWithNewDataQueryIds options m) m) →
        Event.queryId b = None)
  ∧ (∀ b, b ∈ definitionBindings
                (replaceDataQueryIdWithinDefinitions
                   (replaceDataQueryIdWithinDefinitions definition m) m) →
          Event.queryId b = None).
Proof.
  intros Hm. split; intros b Hb.
  - rewrite !optionsBindings_replace, map_map in Hb.
    apply elem_of_map_iff in Hb as (e & _ & <-).
    by apply replaceEventQueryId_twice.
  - rewrite !definitionBindings_replace, map_map in Hb.
    apply elem_of_map_iff in Hb as (e & _ & <-).
    by apply replaceEventQueryId_twice.
Qed.

Lemma remapping_twice_clears_query_ids_witness :
  optionsBindings
    (replaceDataQueryOptionsWithNewDataQueryIds
       (replaceDataQueryOptionsWithNewDataQueryIds selfRunningOptions
          {[7 := 107]}) {[7 := 107]})
  = [Event.mk None "onSuccess"]
  ∧ ∀ b, b ∈ optionsBindings
               (replaceDataQueryOptionsWithNewDataQueryIds
                  (replaceDataQueryOptionsWithNewDataQueryIds
                     selfRunningOptions {[7 := 107]}) {[7 := 107]}) →
         Event.queryId b = None.
Proof.
  split; [reflexivity|].
  apply (remapping_twice_clears_query_ids {[7 := 107]} selfRunningOptions None).
  intros k v Hk. apply lookup_singleton_Some in Hk as [<- <-]. reflexivity.
Defined.

(** ** The rows [import] creates *)

Section ImportedRows.

Variable dataSourcesService : DataSourcesService.

Lemma createdRows_app {A} (before rows : list A) :
  createdRows before (before ++ rows) = rows.
Proof. unfold createdRows. by rewrite drop_app_length. Qed.

Lemma createdRows_map {A B} (f : A → B) (before rows after : list A) :
  map f after = map f (before ++ rows) →
  map f (createdRows before after) = map f rows.
Proof.
  intros H. unfold createdRows.
  change (map f (drop (length before) after))
    with (f <$> drop (length before) after).
  rewrite fmap_drop.
  change (f <$> after) with (map f after). rewrite H, map_app.
  rewrite <- (length_map f before). apply drop_app_length.
Qed.

Lemma map_imap_const {A B C} (f : B → C) (g : nat → A → B) (h : A → C) l :
  (∀ i x, f (g i x) = h x) → map f (imap g l) = map h l.
Proof.
  revert g. induction l as [|x l IH]; intros g H; simpl; [done|].
  f_equal; [apply H|]. apply IH. intros i y. apply H.
Qed.

(** X9: the grant seeded for an imported application.  Groups are never
    changed; at most one grant is added; none is added when the importing
    user's organization has no [admin] group; a grant that is added is for
    the imported application, allows reading, updating and deleting, and
    names an [admin] group of the importing user's organization. *)
Theorem import_seeds_admin_grant user o s :
  (∀ a, a ∈ apps s → App.id a < nextId s) →
  ∃ app s' grants,
    import dataSourcesService user (JsObject o) s = (inr app, s')
    ∧ group_permissions s' = group_permissions s
    ∧ app_group_permissions s' = app_group_permissions s ++ grants
    ∧ length grants ≤ 1
    ∧ (adminGroups (User.organizationId user) s = [] → grants = [])
    ∧ ∀ p, p ∈ grants →
        AppGroupPermission.appId p = App.id app
        ∧ AppGroupPermission.read p = true
        ∧ AppGroupPermission.update p = true
        ∧ AppGroupPermission.delete p = true
        ∧ ∃ g, g ∈ group_permissions s
               ∧ AppGroupPermission.groupPermissionId p = GroupPermission.id g
               ∧ GroupPermission.group g = "admin"
               ∧ GroupPermission.organizationId g = User.organizationId user.
Proof.
  intros Hwf.
  destruct (import_object_spec dataSourcesService user o s Hwf)
    as (s1 & Hb & Hi).
  eexists _, _, _. split; [exact Hi|].
  match type of Hb with
  | buildImportedAppAssociations _ ?a _ ?st = _ =>
      destruct (buildImportedAppAssociations_spec dataSourcesService a o st)
        as (s1' & Hb' & _ & Hgp & Hagp & _)
  end.
  rewrite Hb in Hb'. injection Hb' as <-.
  rewrite createAdminGroupPermissions_spec. simpl in *.
  split; [exact Hgp|].
  split; [by rewrite Hagp|].
  unfold adminGrants, adminGroups. simpl. rewrite Hgp.
  destruct (List.filter _ (group_permissions s)) as [|g gs] eqn:Hf.
  - split; [simpl; lia|]. split; [done|].
    intros p Hp. by apply elem_of_nil in Hp.
  - split; [simpl; lia|]. split; [done|].
    intros p Hp. apply list_elem_of_singleton in Hp as ->. simpl.
    repeat (split; [reflexivity|]).
    assert (Hg : In g (List.filter
                  (λ g, (GroupPermission.organizationId g
                           =? User.organizationId user)
                        && String.eqb (GroupPermission.group g) "admin")
                  (group_permissions s))) by (rewrite Hf; by left).
    apply filter_In in Hg as [Hg Hp]. apply andb_prop in Hp as [Ho Ha].
    exists g. split; [by apply list_elem_of_In|]. split; [done|].
    split; [by apply String.eqb_eq | by apply Nat.eqb_eq].
Qed.

(** X10: the versions of an imported application.  One version row is
    created for each version of the snapshot, in the snapshot's order and
    with the snapshot's names; each belongs to the imported application;
    their ids are distinct and none was in use before. *)
Theorem import_creates_versions_in_order user o s :
  freshIds s →
  ∃ app s',
    import dataSourcesService user (JsObject o) s = (inr app, s')
    ∧ let created := createdRows (app_versions s) (app_versions s') in
      map (λ row, (AppVersion.appId row, AppVersion.name row)) created
      = map (λ v, (App.id app, VersionParams.name v))
          (default [] (AppParams.appVersions o))
      ∧ NoDup (map AppVersion.id created)
      ∧ ∀ row, row ∈ created → nextId s < AppVersion.id row.
Proof.
  intros Hfresh.
  destruct (import_object_spec dataSourcesService user o s
              (fresh_apps s Hfresh)) as (s1 & Hb & Hi).
  eexists _, _. split; [exact Hi|]. cbn zeta.
  match type of Hb with
  | buildImportedAppAssociations _ ?a _ ?st = _ =>
      destruct (buildImportedAppAssociations_spec dataSourcesService a o st)
        as (s1' & Hb' & _ & _ & _ & _ & Hids & Hkeys & _)
  end.
  rewrite Hb in Hb'. injection Hb' as <-.
  rewrite createAdminGroupPermissions_spec. simpl in *.
  specialize (Hkeys (fresh_version_keys s Hfresh)).
  assert (Hlt : ∀ v, v ∈ app_versions s → AppVersion.id v < S (nextId s)).
  { intros v Hv. apply (fresh_versions s Hfresh) in Hv. lia. }
  specialize (Hkeys Hlt).
  apply createdRows_map in Hkeys. apply createdRows_map in Hids.
  set (created := createdRows (app_versions s) (app_versions s1)) in *.
  split.
  { apply (f_equal (map (λ key : Id * Id * option string, (key.1.2, key.2))))
      in Hkeys.
    rewrite !map_map in Hkeys. simpl in Hkeys. rewrite Hkeys.
    unfold newVersions. by apply map_imap_const. }
  split.
  { rewrite Hids. apply newVersions_NoDup, idsPerVersion_pos. }
  intros row Hrow.
  assert (AppVersion.id row ∈ map AppVersion.id created) as Hin
    by (apply list_elem_of_In, in_map, list_elem_of_In, Hrow).
  rewrite Hids in Hin. apply newVersions_ids_ge in Hin. lia.
Qed.

End ImportedRows.

(** A store with applications, versions and environments whose ids came
    from its own sequence. *)
Lemma freshIds_twoVersionStore : freshIds twoVersionStore.
Proof.
  split; simpl.
  - intros a Ha. apply list_elem_of_In in Ha. simpl in Ha.
    destruct Ha as [<-|[]]. simpl. lia.
  - intros v Hv. apply list_elem_of_In in Hv. simpl in Hv.
    destruct Hv as [<-|[<-|[]]]; simpl; lia.
  - intros v Hv. apply list_elem_of_In in Hv. simpl in Hv.
    destruct Hv as [<-|[<-|[]]]; simpl; lia.
  - apply NoDup_ListNoDup. repeat constructor; simpl; intuition lia.
  - intros e k He Hk. apply list_elem_of_In in He. simpl in He.
    destruct He as [<-|[<-|[]]]; simpl in Hk; injection Hk as <-; lia.
  - intros p Hp. by apply elem_of_nil in Hp.
Qed.

Lemma import_seeds_admin_grant_witness :
  ∃ app s' grants,
    import plainOptions (User.mk 1 10) (JsObject legacySnapshot) twoAdminGroups
    = (inr app, s')
    ∧ group_permissions s' = group_permissions twoAdminGroups
    ∧ app_group_permissions s' = grants
    ∧ length grants ≤ 1.
Proof.
  destruct (import_seeds_admin_grant plainOptions (User.mk 1 10) legacySnapshot
              twoAdminGroups)
    as (app & s' & grants & Hi & Hgp & Hg & Hlen & _).
  { intros a Ha. by apply elem_of_nil in Ha. }
  exists app, s', grants. auto.
Defined.

Lemma import_creates_versions_in_order_witness :
  ∃ app s',
    import plainOptions (User.mk 1 10) (JsObject legacySnapshot)
      twoVersionStore = (inr app, s')
    ∧ map (λ row, (AppVersion.appId row, AppVersion.name row))
        (createdRows (app_versions twoVersionStore) (app_versions s'))
      = [(App.id app, Some "v1")].
Proof.
  destruct (import_creates_versions_in_order plainOptions (User.mk 1 10)
              legacySnapshot twoVersionStore freshIds_twoVersionStore)
    as (app & s' & Hi & Hrows & _).
  exists app, s'. auto.
Defined.

(** ** The tables after an import *)

Section ImportedTables.

Variable dataSourcesService : DataSourcesService.

(** One iteration of the second loop only appends to the table of
    data-source options. *)
Lemma associateVersion_options envs sources dsos l s v k r :
  Locals.appVersionMapping l !! VersionParams.id v = Some k →
  findById AppVersion.id k (app_versions s) = Some r →
  ∃ l' s' rows,
    associateVersion dataSourcesService envs sources dsos (l, s) v
    = inr (l', s')
    ∧ data_source_options s' = data_source_options s ++ rows.
Proof.
  intros Hk Hr. unfold associateVersion.
  pose proof (createEnvironment_fold (Locals.appVersionMapping l) envs
                (Locals.appEnvironmentMapping l) s) as HE.
  destruct (foldl (createEnvironment (Locals.appVersionMapping l))
              (Locals.appEnvironmentMapping l, s) envs) as [aem s1].
  simpl in HE. subst s1.
  match goal with
  | |- context [foldl (createDataSource ?a ?b ?c) (?d, ?e, ?f) sources] =>
      pose proof (createDataSource_fold dataSourcesService b c sources d e f)
        as HS;
      destruct (foldl (createDataSource a b c) (d, e, f) sources)
        as [[dsom dsm] s2]
  end.
  cbn zeta in HS. simpl in HS. subst s2.
  destruct (length dsos =? 0) eqn:Hd;
    eexists _, _, _;
    rewrite ?createLegacyOptions_fold, createDataSourceOption_fold,
      createDataQuery_fold; simpl;
    rewrite remapDataQuery_fold; simpl;
    unfold remapVersionDefinition; simpl; rewrite Hk; simpl; rewrite Hr;
    (split; [reflexivity|]); simpl;
    rewrite <- ?app_assoc; reflexivity.
Qed.

Lemma remapRow_fresh dqm newQueries rows n :
  (∀ q, q ∈ rows → DataQuery.id q < n) →
  (∀ k, k ∈ map DataQuery.id newQueries → n ≤ k) →
  map (remapRow dqm newQueries) rows = rows.
Proof.
  intros Hlt Hge. rewrite <- (map_id rows) at 2. apply map_ext_in.
  intros row Hrow. apply remapRow_other. intros Hin.
  apply list_elem_of_In, Hlt in Hrow. apply Hge in Hin. lia.
Qed.

(** The second loop, table by table. *)
Lemma associateVersions_tables envs sources dsos versions l s :
  (∀ v, v ∈ versions →
     ∃ k, Locals.appVersionMapping l !! VersionParams.id v = Some k
          ∧ k ∈ map AppVersion.id (app_versions s)) →
  ∃ l' s' envRows srcRows optRows,
    forEach (associateVersion dataSourcesService envs sources dsos) (l, s)
      versions = inr (l', s')
    ∧ Locals.appVersionMapping l' = Locals.appVersionMapping l
    ∧ app_environments s' = app_environments s ++ envRows
    ∧ length envRows = length versions * length envs
    ∧ (∀ e k, e ∈ envRows → AppEnvironment.appVersionId e = Some k →
              ∃ x, Locals.appVersionMapping l !! x = Some k)
    ∧ data_sources s' = data_sources s ++ srcRows
    ∧ length srcRows
      = sum_list
          (map (λ v, length (List.filter (λ source, negb (skipped v source))
                               sources)) versions)
    ∧ (∀ d, d ∈ srcRows →
         ∃ v, v ∈ versions
              ∧ DataSource.appVersionId d
                = Locals.appVersionMapping l !! VersionParams.id v)
    ∧ data_source_options s' = data_source_options s ++ optRows
    ∧ length optRows
      = length versions
        * ((if length dsos =? 0 then length sources else 0) + length dsos)
    ∧ length (data_queries s')
      = length (data_queries s)
        + length versions * length (Locals.dataQueries l)
    ∧ ((∀ q, q ∈ data_queries s → DataQuery.id q < nextId s) →
       take (length (data_queries s)) (data_queries s') = data_queries s
       ∧ ∀ q, q ∈ data_queries s' → DataQuery.id q < nextId s')
    ∧ (∀ N,
         (∀ v k, v ∈ versions →
                 Locals.appVersionMapping l !! VersionParams.id v = Some k →
                 N ≤ k) →
         ∀ i r, app_versions s !! i = Some r → AppVersion.id r < N →
                app_versions s' !! i = Some r).
Proof.
  revert l s. induction versions as [|v versions IH]; intros l s Hv.
  - exists l, s, [], [], []. simpl. rewrite !app_nil_r.
    repeat split; auto.
    + intros e k He. by apply elem_of_nil in He.
    + intros d Hd. by apply elem_of_nil in Hd.
    + apply firstn_all.
  - destruct (Hv v) as (k & Hk & Hin); [left|].
    destruct (findById_is_Some AppVersion.id k (app_versions s) Hin)
      as [r Hr].
    destruct (associateVersion_spec dataSourcesService envs sources dsos l s
                v k r Hk Hr)
      as (l1 & s1 & dsm & Hstep & Havm & _ & _ & Hdq & _ & _ & _ & _ & Hnext
          & Hver & Henv & Hsrc & Hdsolen & Hq).
    destruct (associateVersion_options envs sources dsos l s v k r Hk Hr)
      as (l1' & s1' & rows & Hstep' & Hdso).
    rewrite Hstep in Hstep'. injection Hstep' as <- <-.
    pose proof (findById_Some _ _ _ _ Hr) as [_ Hrk].
    assert (Hids : map AppVersion.id (app_versions s1)
                   = map AppVersion.id (app_versions s)).
    { rewrite Hver. by apply updateWhereId_same_id. }
    destruct (IH l1 s1)
      as (l' & s' & envRows & srcRows & optRows & Hrest & Havm' & E1 & E2 & E3
          & S1 & S2 & S3 & O1 & O2 & Q1 & Q2 & V1).
    { intros v' Hv'. destruct (Hv v') as (k' & Hk' & Hin'); [by right|].
      exists k'. by rewrite Havm, Hids. }
    eexists l', s', (_ ++ envRows), (_ ++ srcRows), (rows ++ optRows).
    cbn [forEach]. rewrite Hstep.
    split; [exact Hrest|].
    split; [congruence|].
    split; [by rewrite E1, Henv, app_assoc|].
    split.
    { rewrite length_app, E2. unfold newEnvironments. rewrite length_imap.
      simpl. lia. }
    split.
    { intros e k' He Hk'. apply elem_of_app in He as [He|He].
      - unfold newEnvironments in He.
        apply elem_of_lookup_imap in He as (i & x & -> & _). simpl in Hk'.
        destruct (EnvironmentParams.versionId x) as [y|]; [|done]. eauto.
      - rewrite <- Havm. eauto. }
    split; [by rewrite S1, Hsrc, app_assoc|].
    split.
    { rewrite length_app, S2. unfold newDataSources. rewrite length_imap.
      reflexivity. }
    split.
    { intros d Hd. apply elem_of_app in Hd as [Hd|Hd].
      - unfold newDataSources in Hd.
        apply elem_of_lookup_imap in Hd as (i & x & -> & _).
        exists v. split; [left|reflexivity].
      - destruct (S3 d Hd) as (v' & Hv' & Hd'). exists v'.
        split; [by right|]. by rewrite <- Havm. }
    split; [by rewrite O1, Hdso, app_assoc|].
    split.
    { rewrite length_app, O2. rewrite Hdso, length_app in Hdsolen.
      simpl. lia. }
    assert (Hlen1 : length (data_queries s1)
                    = length (data_queries s) + length (Locals.dataQueries l)).
    { rewrite Hq, length_app, !length_map. unfold newDataQueries.
      by rewrite length_imap. }
    assert (Hdqlen : length (Locals.dataQueries l1)
                     = length (Locals.dataQueries l)).
    { by rewrite Hdq, length_map. }
    split.
    { rewrite Q1, Hlen1, Hdqlen. simpl. lia. }
    split.
    { intros Hlt.
      assert (Hold : data_queries s1
                     = data_queries s
                       ++ map (remappedQuery (Locals.dataQueryMapping l1))
                            (newDataQueries dsm
                               (nextId s + length envs
                                + length (List.filter
                                            (λ source, negb (skipped v source))
                                            sources)
                                + (if length dsos =? 0 then length sources
                                   else 0)
                                + length dsos)
                               (Locals.dataQueries l))).
      { rewrite Hq. f_equal. apply (remapRow_fresh _ _ _ (nextId s) Hlt).
        intros k'. rewrite newDataQueries_ids. intros Hk'.
        apply list_elem_of_In, in_seq in Hk'. lia. }
      destruct Q2 as [Q2 Q3].
      { intros q Hq'. rewrite Hold in Hq'.
        apply elem_of_app in Hq' as [Hq'|Hq'].
        - apply Hlt in Hq'. lia.
        - assert (DataQuery.id q
                  ∈ map DataQuery.id
                      (map (remappedQuery (Locals.dataQueryMapping l1))
                         (newDataQueries dsm
                            (nextId s + length envs
                             + length (List.filter
                                         (λ source, negb (skipped v source))
                                         sources)
                             + (if length dsos =? 0 then length sources
                                else 0)
                             + length dsos)
                            (Locals.dataQueries l)))) as Hid
            by (apply list_elem_of_In, in_map, list_elem_of_In, Hq').
          rewrite map_map in Hid. simpl in Hid.
          change (map (λ x, DataQuery.id x) ?rows) with (map DataQuery.id rows)
            in Hid.
          rewrite newDataQueries_ids in Hid.
          apply list_elem_of_In, in_seq in Hid. lia. }
      split; [|exact Q3].
      transitivity (take (length (data_queries s))
                      (take (length (data_queries s1)) (data_queries s'))).
      { rewrite take_take. f_equal. lia. }
      rewrite Q2, Hold. apply take_app_length. }
    intros N HN i r' Hi Hr'.
    apply (V1 N).
    { intros v' k' Hv' Hk'. rewrite Havm in Hk'. eapply HN; [by right|done]. }
    2: exact Hr'.
    rewrite Hver. unfold updateWhereId. rewrite lookup_map, Hi. simpl.
    destruct (AppVersion.id r' =? AppVersion.id r) eqn:E; [|done].
    apply Nat.eqb_eq in E. exfalso.
    assert (v ∈ v :: versions) as Hvin by left.
    specialize (HN v k Hvin Hk). lia.
Qed.

End ImportedTables.

Section ImportedTablesOfBuild.

Variable dataSourcesService : DataSourcesService.

Lemma versionMapping_range avm n w versions x k :
  versionMapping avm n w versions !! x = Some k →
  avm !! x = Some k ∨ ∃ i, i < length versions ∧ k = n + w * i.
Proof.
  revert avm n. induction versions as [|v versions IH]; intros avm n H;
    simpl in *; [by left|].
  apply IH in H as [H|(i & Hi & ->)].
  - destruct (decide (VersionParams.id v = x)) as [Heq|Hne].
    + rewrite <- Heq, lookup_insert_eq in H. injection H as <-.
      right. exists 0. split; lia.
    + rewrite lookup_insert_ne in H by done. by left.
  - right. exists (S i). split; [lia|]. rewrite Nat.mul_succ_r. lia.
Qed.

Lemma take_unchanged {A} (before after : list A) :
  length before ≤ length after →
  (∀ i r, before !! i = Some r → after !! i = Some r) →
  take (length before) after = before.
Proof.
  intros Hlen H. apply list_eq. intros i. rewrite lookup_take.
  destruct (decide (i < length before)) as [Hi|Hi].
  - destruct (lookup_lt_is_Some_2 before i Hi) as [r Hr].
    rewrite Hr. by apply H.
  - symmetry. apply lookup_ge_None_2. lia.
Qed.

(** [buildImportedAppAssociations], table by table: the rows it appends,
    their number, the versions they name, and what it leaves alone. *)
Lemma buildImportedAppAssociations_tables importedApp o s :
  let versions := default [] (AppParams.appVersions o) in
  let envs := default [] (AppParams.appEnvironments o) in
  let sources := default [] (AppParams.dataSources o) in
  let dsos := default [] (AppParams.dataSourceOptions o) in
  let queries := default [] (AppParams.dataQueries o) in
  let created :=
    map AppVersion.id
      (newVersions importedApp (nextId s) (idsPerVersion envs) (clock s)
         versions) in
  ∃ s' envRows srcRows optRows,
    buildImportedAppAssociations dataSourcesService importedApp o s = inr s'
    ∧ map AppVersion.id (app_versions s')
      = map AppVersion.id (app_versions s) ++ created
    ∧ app_environments s' = app_environments s ++ envRows
    ∧ length envRows
      = length versions * (if length envs =? 0 then 1 else length envs)
    ∧ (∀ e k, e ∈ envRows → AppEnvironment.appVersionId e = Some k →
              k ∈ created)
    ∧ data_sources s' = data_sources s ++ srcRows
    ∧ length srcRows
      = sum_list
          (map (λ v, length (List.filter (λ source, negb (skipped v source))
                               sources)) versions)
    ∧ (∀ d, d ∈ srcRows →
         ∃ k, DataSource.appVersionId d = Some k ∧ k ∈ created)
    ∧ data_source_options s' = data_source_options s ++ optRows
    ∧ length optRows
      = length versions
        * (if length dsos =? 0 then length sources else length dsos)
    ∧ length (data_queries s')
      = length (data_queries s) + length versions * length queries
    ∧ ((∀ q, q ∈ data_queries s → DataQuery.id q < nextId s) →
       take (length (data_queries s)) (data_queries s') = data_queries s)
    ∧ ((∀ v, v ∈ app_versions s → AppVersion.id v < nextId s) →
       take (length (app_versions s)) (app_versions s') = app_versions s).
Proof.
  cbn zeta.
  destruct (buildImportedAppAssociations_spec dataSourcesService importedApp
              o s) as (s' & Hb & _ & _ & _ & _ & Hids & _).
  cbn zeta in Hids. rewrite map_app in Hids.
  revert Hb. unfold buildImportedAppAssociations.
  rewrite createVersion_fold. cbn zeta.
  set (versions := default [] (AppParams.appVersions o)) in *.
  set (envs := default [] (AppParams.appEnvironments o)) in *.
  set (w := idsPerVersion envs) in *.
  match goal with
  | |- context [forEach ?f (?l, ?s1) versions] =>
      destruct (associateVersions_tables dataSourcesService envs
                  (default [] (AppParams.dataSources o))
                  (default [] (AppParams.dataSourceOptions o)) versions l s1)
        as (l' & s2 & envRows & srcRows & optRows & Hrun & Havm & E1 & E2 & E3
            & S1 & S2 & S3 & O1 & O2 & Q1 & Q2 & V1)
  end.
  { intros v Hv. simpl.
    destruct (versionMapping_lookup ∅ (nextId s) w versions
                (VersionParams.id v)) as (i & Hi & Hl).
    { apply list_elem_of_In, in_map, list_elem_of_In, Hv. }
    exists (nextId s + w * i). split; [exact Hl|].
    rewrite map_app. apply elem_of_app. right. by apply newVersions_elem. }
  rewrite Hrun. intros [= <-].
  pose proof (setEditingVersionAsLatestVersion_spec
                (Locals.appVersionMapping l') versions s2) as HE.
  cbn zeta in HE.
  destruct HE as (_ & F2 & F3 & F4 & F5 & _ & _ & _ & _ & _).
  simpl in *.
  assert (Hcreated : ∀ x k,
            versionMapping ∅ (nextId s) w versions !! x = Some k →
            k ∈ map AppVersion.id
                  (newVersions importedApp (nextId s) w (clock s) versions)).
  { intros x k Hk. apply versionMapping_range in Hk as [Hk|(i & Hi & ->)].
    - by rewrite lookup_empty in Hk.
    - by apply newVersions_elem. }
  eexists _, (defaultEnvironments envs (nextId s) versions ++ envRows),
    srcRows, optRows.
  split; [reflexivity|].
  split; [exact Hids|].
  split; [by rewrite F2, E1, app_assoc|].
  split.
  { rewrite length_app, E2. unfold defaultEnvironments.
    destruct (length envs =? 0) eqn:He.
    - rewrite length_imap. apply Nat.eqb_eq in He. rewrite He. lia.
    - simpl. reflexivity. }
  split.
  { intros e k He Hk. apply elem_of_app in He as [He|He].
    - unfold defaultEnvironments in He.
      destruct (length envs =? 0) eqn:Hn; [|by apply elem_of_nil in He].
      apply elem_of_lookup_imap in He as (i & x & -> & Hx).
      cbn [AppEnvironment.appVersionId] in Hk. injection Hk as <-.
      apply lookup_lt_Some in Hx.
      assert (w = 2) as Hw by (unfold w, idsPerVersion; by rewrite Hn).
      rewrite Hw.
      exact (newVersions_elem importedApp (nextId s) 2 (clock s) versions i
               Hx).
    - destruct (E3 e k He Hk) as [x Hx]. by apply (Hcreated x). }
  split; [by rewrite F3, S1|].
  split; [exact S2|].
  split.
  { intros d Hd. destruct (S3 d Hd) as (v & Hv & Hdv).
    destruct (versionMapping_lookup ∅ (nextId s) w versions
                (VersionParams.id v)) as (i & Hi & Hl).
    { apply list_elem_of_In, in_map, list_elem_of_In, Hv. }
    exists (nextId s + w * i). split; [by rewrite Hdv|].
    by apply newVersions_elem. }
  split; [by rewrite F4, O1|].
  split.
  { rewrite O2. destruct (length (default [] (AppParams.dataSourceOptions o))
                          =? 0) eqn:Hd; [|reflexivity].
    apply Nat.eqb_eq in Hd. rewrite Hd. lia. }
  split; [by rewrite F5, Q1|].
  split.
  { intros Hlt. rewrite F5. apply Q2.
    intros q Hq. apply Hlt in Hq.
    assert (0 < w) by apply idsPerVersion_pos. nia. }
  intros Hlt. apply take_unchanged.
  { apply (f_equal length) in Hids.
    rewrite length_app, !length_map in Hids. lia. }
  intros i r Hi.
  assert (Hloop : app_versions s2 !! i = Some r).
  { apply (V1 (nextId s)).
    - intros v k Hv Hk. apply versionMapping_range in Hk as [Hk|(j & _ & ->)];
        [by rewrite lookup_empty in Hk | lia].
    - rewrite lookup_app_l by (by apply lookup_lt_Some in Hi). exact Hi.
    - apply Hlt. by apply list_elem_of_lookup_2 in Hi. }
  unfold setEditingVersionAsLatestVersion.
  destruct (last versions) as [v|] eqn:Hlast; [|exact Hloop].
  destruct (Locals.appVersionMapping l' !! VersionParams.id v) as [k|] eqn:Hk;
    [|exact Hloop].
  simpl. unfold updateWhereId. rewrite lookup_map, Hloop. simpl.
  destruct (AppVersion.id r =? k) eqn:E; [|done].
  apply Nat.eqb_eq in E. exfalso.
  assert (AppVersion.id r < nextId s)
    by (apply Hlt; by apply list_elem_of_lookup_2 in Hi).
  enough (nextId s ≤ k) by lia.
  rewrite Havm in Hk.
  apply versionMapping_range in Hk as [Hk|(j & _ & ->)];
    [by rewrite lookup_empty in Hk | lia].
Qed.

End ImportedTablesOfBuild.

Section ImportedTablesOfImport.

Variable dataSourcesService : DataSourcesService.

(** The tables after a successful import are those
    [buildImportedAppAssociations] leaves, but for the application row and
    the seeded grant. *)
Lemma import_object_tables user o s :
  (∀ a, a ∈ apps s → App.id a < nextId s) →
  let shell :=
    App.mk (nextId s) (AppParams.name o) (User.organizationId user)
      (User.id user) None false None in
  ∃ app s' s1 grants,
    import dataSourcesService user (JsObject o) s = (inr app, s')
    ∧ buildImportedAppAssociations dataSourcesService shell o
        (bumpId (with_apps (λ t, t ++ [shell]) s)) = inr s1
    ∧ App.id app = nextId s
    ∧ App.organizationId app = User.organizationId user
    ∧ apps s' = apps s ++ [app]
    ∧ app_versions s' = app_versions s1
    ∧ app_environments s' = app_environments s1
    ∧ data_sources s' = data_sources s1
    ∧ data_source_options s' = data_source_options s1
    ∧ data_queries s' = data_queries s1
    ∧ group_permissions s' = group_permissions s
    ∧ app_group_permissions s' = app_group_permissions s ++ grants.
Proof.
  intros Hwf. cbn zeta.
  destruct (import_object_spec dataSourcesService user o s Hwf)
    as (s1 & Hb & Hi).
  match type of Hb with
  | buildImportedAppAssociations _ ?a _ ?st = _ =>
      destruct (buildImportedAppAssociations_spec dataSourcesService a o st)
        as (s1' & Hb' & _ & Hgp & Hagp & _)
  end.
  rewrite Hb in Hb'. injection Hb' as <-.
  eexists _, _, s1, _. split; [exact Hi|]. split; [exact Hb|].
  rewrite createAdminGroupPermissions_spec. simpl in *.
  rewrite Hgp, Hagp. repeat split.
Qed.

Lemma appended_createdRows {A} (before after : list A) :
  take (length before) after = before →
  after = before ++ createdRows before after.
Proof.
  intros H. unfold createdRows.
  rewrite <- (take_drop (length before) after) at 1. by rewrite H.
Qed.

(** X11: how many rows an import adds.  One application; one version for
    each version of the snapshot; for each version, one environment when
    the snapshot has none and otherwise one for every environment of the
    snapshot, whichever version that environment names; for each version,
    one data source for every source that names no version or that
    version; for each version, one options row for every data source when
    the snapshot has no data-source options and otherwise one for every
    data-source option; for each version, one query for every query of the
    snapshot. *)
Theorem import_row_counts user o s :
  (∀ a, a ∈ apps s → App.id a < nextId s) →
  let versions := default [] (AppParams.appVersions o) in
  let envs := default [] (AppParams.appEnvironments o) in
  let sources := default [] (AppParams.dataSources o) in
  let dsos := default [] (AppParams.dataSourceOptions o) in
  let queries := default [] (AppParams.dataQueries o) in
  ∃ app s',
    import dataSourcesService user (JsObject o) s = (inr app, s')
    ∧ length (apps s') = length (apps s) + 1
    ∧ length (app_versions s') = length (app_versions s) + length versions
    ∧ length (app_environments s')
      = length (app_environments s)
        + length versions * (if length envs =? 0 then 1 else length envs)
    ∧ length (data_sources s')
      = length (data_sources s)
        + sum_list
            (map (λ v, length (List.filter
                                 (λ source, negb (skipped v source)) sources))
               versions)
    ∧ length (data_source_options s')
      = length (data_source_options s)
        + length versions
          * (if length dsos =? 0 then length sources else length dsos)
    ∧ length (data_queries s')
      = length (data_queries s) + length versions * length queries.
Proof.
  intros Hwf. cbn zeta.
  destruct (import_object_tables user o s Hwf)
    as (app & s' & s1 & grants & Hi & Hb & _ & _ & Ha & Hv & He & Hs & Ho & Hq
        & _).
  match type of Hb with
  | buildImportedAppAssociations _ ?a _ ?st = _ =>
      destruct (buildImportedAppAssociations_tables dataSourcesService a o st)
        as (s1' & envRows & srcRows & optRows & Hb' & V1 & E1 & E2 & _ & S1
            & S2 & _ & O1 & O2 & Q1 & _)
  end.
  rewrite Hb in Hb'. injection Hb' as <-. simpl in *.
  exists app, s'. split; [exact Hi|].
  split; [by rewrite Ha, length_app|].
  split.
  { rewrite Hv. apply (f_equal length) in V1.
    rewrite length_app, !length_map in V1. unfold newVersions in V1.
    by rewrite length_imap in V1. }
  split; [by rewrite He, E1, length_app, E2|].
  split; [by rewrite Hs, S1, length_app, S2|].
  split; [by rewrite Ho, O1, length_app, O2|].
  by rewrite Hq, Q1.
Qed.

(** X12: an import only appends.  In a store whose ids came from its own
    sequence, every table afterwards is the table before followed by the
    rows the import created: no existing application, version,
    environment, data source, data-source option, query or grant is
    changed or removed, and the groups are as they were. *)
Theorem import_only_appends user o s :
  freshIds s →
  (∀ q, q ∈ data_queries s → DataQuery.id q < nextId s) →
  ∃ app s',
    import dataSourcesService user (JsObject o) s = (inr app, s')
    ∧ apps s' = apps s ++ createdRows (apps s) (apps s')
    ∧ app_versions s'
      = app_versions s ++ createdRows (app_versions s) (app_versions s')
    ∧ app_environments s'
      = app_environments s
        ++ createdRows (app_environments s) (app_environments s')
    ∧ data_sources s'
      = data_sources s ++ createdRows (data_sources s) (data_sources s')
    ∧ data_source_options s'
      = data_source_options s
        ++ createdRows (data_source_options s) (data_source_options s')
    ∧ data_queries s'
      = data_queries s ++ createdRows (data_queries s) (data_queries s')
    ∧ app_group_permissions s'
      = app_group_permissions s
        ++ createdRows (app_group_permissions s) (app_group_permissions s')
    ∧ group_permissions s' = group_permissions s.
Proof.
  intros Hfresh Hqueries.
  destruct (import_object_tables user o s (fresh_apps s Hfresh))
    as (app & s' & s1 & grants & Hi & Hb & _ & _ & Ha & Hv & He & Hs & Ho & Hq
        & Hgp & Hagp).
  match type of Hb with
  | buildImportedAppAssociations _ ?a _ ?st = _ =>
      destruct (buildImportedAppAssociations_tables dataSourcesService a o st)
        as (s1' & envRows & srcRows & optRows & Hb' & _ & E1 & _ & _ & S1
            & _ & _ & O1 & _ & _ & Q2 & V2)
  end.
  rewrite Hb in Hb'. injection Hb' as <-. simpl in *.
  exists app, s'. split; [exact Hi|].
  split; [by rewrite Ha, createdRows_app|].
  split.
  { apply appended_createdRows. rewrite Hv. apply V2.
    intros v Hin. apply (fresh_versions s Hfresh) in Hin. lia. }
  split; [by rewrite He, E1, createdRows_app|].
  split; [by rewrite Hs, S1, createdRows_app|].
  split; [by rewrite Ho, O1, createdRows_app|].
  split.
  { apply appended_createdRows. rewrite Hq. apply Q2.
    intros q Hin. apply Hqueries in Hin. lia. }
  split; [by rewrite Hagp, createdRows_app|].
  exact Hgp.
Qed.

(** X13: what an import creates hangs together.  Every data source it
    creates belongs to a version it created, and every environment it
    creates that names a version names one it created. *)
Theorem imported_rows_name_imported_versions user o s :
  (∀ a, a ∈ apps s → App.id a < nextId s) →
  ∃ app s',
    import dataSourcesService user (JsObject o) s = (inr app, s')
    ∧ (∀ d, d ∈ createdRows (data_sources s) (data_sources s') →
         ∃ row, row ∈ createdRows (app_versions s) (app_versions s')
                ∧ DataSource.appVersionId d = Some (AppVersion.id row))
    ∧ (∀ e k, e ∈ createdRows (app_environments s) (app_environments s') →
         AppEnvironment.appVersionId e = Some k →
         ∃ row, row ∈ createdRows (app_versions s) (app_versions s')
                ∧ AppVersion.id row = k).
Proof.
  intros Hwf.
  destruct (import_object_tables user o s Hwf)
    as (app & s' & s1 & grants & Hi & Hb & _ & _ & Ha & Hv & He & Hs & _).
  match type of Hb with
  | buildImportedAppAssociations _ ?a _ ?st = _ =>
      destruct (buildImportedAppAssociations_tables dataSourcesService a o st)
        as (s1' & envRows & srcRows & optRows & Hb' & V1 & E1 & _ & E3 & S1
            & _ & S3 & _)
  end.
  rewrite Hb in Hb'. injection Hb' as <-. simpl in *.
  rewrite <- map_app in V1. apply createdRows_map in V1.
  rewrite <- Hv in V1.
  exists app, s'. split; [exact Hi|].
  split.
  - intros d Hd. rewrite Hs, S1, createdRows_app in Hd.
    destruct (S3 d Hd) as (k & Hk & Hin). rewrite <- V1 in Hin.
    apply elem_of_map_iff in Hin as (row & Hrow & <-). eauto.
  - intros e k Hin Hk. rewrite He, E1, createdRows_app in Hin.
    pose proof (E3 e k Hin Hk) as Hc. rewrite <- V1 in Hc.
    apply elem_of_map_iff in Hc as (row & Hrow & <-). eauto.
Qed.

End ImportedTablesOfImport.

Lemma import_row_counts_witness :
  ∃ app s',
    import plainOptions (User.mk 3 10) (JsObject legacySnapshot)
      twoVersionStore = (inr app, s')
    ∧ length (apps s') = 2
    ∧ length (app_versions s') = 3
    ∧ length (app_environments s') = 3
    ∧ length (data_sources s') = 2
    ∧ length (data_source_options s') = 1
    ∧ length (data_queries s') = 1.
Proof.
  destruct (import_row_counts plainOptions (User.mk 3 10) legacySnapshot
              twoVersionStore (fresh_apps _ freshIds_twoVersionStore))
    as (app & s' & Hi & H1 & H2 & H3 & H4 & H5 & H6).
  exists app, s'. auto 10.
Defined.

Lemma import_only_appends_witness :
  ∃ app s',
    import plainOptions (User.mk 3 10) (JsObject legacySnapshot)
      twoVersionStore = (inr app, s')
    ∧ take 2 (app_versions s') = app_versions twoVersionStore
    ∧ take 1 (data_queries s') = data_queries twoVersionStore.
Proof.
  destruct (import_only_appends plainOptions (User.mk 3 10) legacySnapshot
              twoVersionStore freshIds_twoVersionStore)
    as (app & s' & Hi & _ & Hv & _ & _ & _ & Hq & _).
  { intros q Hq. apply list_elem_of_singleton in Hq as ->. simpl. lia. }
  exists app, s'. split; [exact Hi|].
  rewrite Hv at 1. rewrite Hq at 1. split; reflexivity.
Defined.

(** ** Query options are shared between the versions of one import *)

Section SharedOptions.

Variable dataSourcesService : DataSourcesService.

Lemma newDataQueryMapping_keys dqm n queries x :
  is_Some (newDataQueryMapping dqm n queries !! x) →
  is_Some (dqm !! x) ∨ x ∈ map QueryParams.id queries.
Proof.
  revert dqm n. induction queries as [|q queries IH]; intros dqm n; simpl;
    [auto|].
  intros H. apply IH in H as [H|H]; [|right; by right].
  destruct (decide (QueryParams.id q = x)) as [Heq|Hne].
  - right. rewrite <- Heq. left.
  - rewrite lookup_insert_ne in H by done. auto.
Qed.

(** A binding that refers to nothing below [N] is cleared by a mapping
    whose keys are all below [N]. *)
Lemma replaceEventQueryId_cleared (m : gmap Id Id) N b :
  (∀ x, is_Some (m !! x) → x < N) →
  (∀ k, Event.queryId b = Some k → N ≤ k) →
  Event.queryId (replaceEventQueryId m b) = None.
Proof.
  intros Hm Hb. unfold replaceEventQueryId.
  destruct (Event.queryId b) as [k|] eqn:E; simpl; [|done].
  destruct (m !! k) as [k'|] eqn:E'; [|done].
  assert (k < N) by (apply Hm; by rewrite E').
  specialize (Hb k eq_refl). lia.
Qed.

(** From the second iteration on: once the bindings of the snapshot's
    queries refer to created queries only, every query an iteration creates
    has lost its bindings' query ids. *)
Lemma associateVersions_rewritten envs sources dsos versions l s N :
  (∀ v, v ∈ versions →
     ∃ k, Locals.appVersionMapping l !! VersionParams.id v = Some k
          ∧ k ∈ map AppVersion.id (app_versions s)) →
  N ≤ nextId s →
  (∀ q, q ∈ data_queries s → DataQuery.id q < nextId s) →
  (∀ x, is_Some (Locals.dataQueryMapping l !! x) → x < N) →
  (∀ q, q ∈ Locals.dataQueries l → QueryParams.id q < N) →
  (∀ q b k, q ∈ Locals.dataQueries l →
            b ∈ optionsBindings (QueryParams.options q) →
            Event.queryId b = Some k → N ≤ k) →
  ∃ l' s',
    forEach (associateVersion dataSourcesService envs sources dsos) (l, s)
      versions = inr (l', s')
    ∧ ∀ q b, q ∈ drop (length (data_queries s)) (data_queries s') →
             b ∈ optionsBindings (DataQuery.options q) →
             Event.queryId b = None.
Proof.
  revert l s. induction versions as [|v versions IH];
    intros l s Hv HN Hold Hkeys Hids Hb.
  - exists l, s. split; [reflexivity|]. intros q b Hq.
    rewrite drop_all in Hq. by apply elem_of_nil in Hq.
  - destruct (Hv v) as (k & Hk & Hin); [left|].
    destruct (findById_is_Some AppVersion.id k (app_versions s) Hin)
      as [r Hr].
    destruct (associateVersion_spec dataSourcesService envs sources dsos l s
                v k r Hk Hr)
      as (l1 & s1 & dsm & Hstep & Havm & _ & Hdqm & Hdq & _ & _ & _ & _
          & Hnext & Hver & _ & _ & _ & Hq).
    pose proof (findById_Some _ _ _ _ Hr) as [_ Hrk].
    assert (Hvids : map AppVersion.id (app_versions s1)
                    = map AppVersion.id (app_versions s)).
    { rewrite Hver. by apply updateWhereId_same_id. }
    assert (Hv1 : ∀ v', v' ∈ versions →
              ∃ k', Locals.appVersionMapping l1 !! VersionParams.id v'
                    = Some k'
                    ∧ k' ∈ map AppVersion.id (app_versions s1)).
    { intros v' Hv'. destruct (Hv v') as (k' & Hk' & Hin'); [by right|].
      exists k'. by rewrite Havm, Hvids. }
    set (n := nextId s + length envs
              + length (List.filter (λ source, negb (skipped v source))
                          sources)
              + (if length dsos =? 0 then length sources else 0)
              + length dsos) in *.
    set (rows := map (remappedQuery (Locals.dataQueryMapping l1))
                   (newDataQueries dsm n (Locals.dataQueries l))) in *.
    assert (Hs1 : data_queries s1 = data_queries s ++ rows).
    { rewrite Hq. f_equal. apply (remapRow_fresh _ _ _ (nextId s) Hold).
      intros k'. rewrite newDataQueries_ids. intros Hk'.
      apply list_elem_of_In, in_seq in Hk'. lia. }
    assert (Hkeys1 : ∀ x, is_Some (Locals.dataQueryMapping l1 !! x) → x < N).
    { intros x Hx. rewrite Hdqm in Hx.
      apply newDataQueryMapping_keys in Hx as [Hx|Hx]; [by apply Hkeys|].
      apply elem_of_map_iff in Hx as (q & Hq' & <-). by apply Hids. }
    assert (Hcleared : ∀ q b,
              q ∈ Locals.dataQueries l →
              b ∈ optionsBindings
                    (replaceDataQueryOptionsWithNewDataQueryIds
                       (QueryParams.options q) (Locals.dataQueryMapping l1)) →
              Event.queryId b = None).
    { intros q b Hq' Hb'. rewrite optionsBindings_replace in Hb'.
      apply elem_of_map_iff in Hb' as (b0 & Hb0 & <-).
      apply (replaceEventQueryId_cleared _ N); [exact Hkeys1|].
      intros k'. by apply (Hb q b0 k'). }
    assert (Hold1 : ∀ q, q ∈ data_queries s1 → DataQuery.id q < nextId s1).
    { intros q Hq'. rewrite Hs1 in Hq'.
      apply elem_of_app in Hq' as [Hq'|Hq'].
      - apply Hold in Hq'. lia.
      - assert (DataQuery.id q ∈ map DataQuery.id rows) as Hid
          by (apply list_elem_of_In, in_map, list_elem_of_In, Hq').
        unfold rows in Hid. rewrite remappedQuery_ids, newDataQueries_ids in Hid.
        apply list_elem_of_In, in_seq in Hid. lia. }
    destruct (IH l1 s1) as (l' & s' & Hrest & Hlater); try done.
    { lia. }
    { intros q Hq'. rewrite Hdq in Hq'.
      apply elem_of_map_iff in Hq' as (q0 & Hq0 & <-). simpl. by apply Hids. }
    { intros q b k' Hq' Hb' Hk'. rewrite Hdq in Hq'.
      apply elem_of_map_iff in Hq' as (q0 & Hq0 & <-). simpl in Hb'.
      rewrite (Hcleared q0 b Hq0 Hb') in Hk'. done. }
    destruct (associateVersions_tables dataSourcesService envs sources dsos
                versions l1 s1 Hv1)
      as (l'' & s'' & _ & _ & _ & Hrest' & _ & _ & _ & _ & _ & _ & _ & _ & _
          & _ & Q2 & _).
    rewrite Hrest in Hrest'. injection Hrest' as <- <-.
    destruct (Q2 Hold1) as [Q2' _].
    exists l', s'. cbn [forEach]. rewrite Hstep. split; [exact Hrest|].
    intros q b Hq' Hb'.
    rewrite <- (take_drop (length (data_queries s1)) (data_queries s')) in Hq'.
    rewrite Q2', Hs1, <- app_assoc, drop_app_length in Hq'.
    apply elem_of_app in Hq' as [Hq'|Hq'].
    + unfold rows in Hq'.
      apply elem_of_map_iff in Hq' as (q0 & Hq0 & <-).
      unfold newDataQueries in Hq0.
      apply elem_of_lookup_imap in Hq0 as (i & x & -> & Hx).
      apply list_elem_of_lookup_2 in Hx.
      by apply (Hcleared x b Hx).
    + rewrite <- Hs1 in Hq'. by apply (Hlater q b).
Qed.

(** The whole second loop, started with an empty query mapping: the
    queries created by the first iteration come first, and those of every
    later iteration have lost their bindings' query ids. *)
Lemma associateVersions_later envs sources dsos versions l s N :
  (∀ v, v ∈ versions →
     ∃ k, Locals.appVersionMapping l !! VersionParams.id v = Some k
          ∧ k ∈ map AppVersion.id (app_versions s)) →
  N ≤ nextId s →
  (∀ q, q ∈ data_queries s → DataQuery.id q < nextId s) →
  Locals.dataQueryMapping l = ∅ →
  (∀ q, q ∈ Locals.dataQueries l → QueryParams.id q < N) →
  ∃ l' s',
    forEach (associateVersion dataSourcesService envs sources dsos) (l, s)
      versions = inr (l', s')
    ∧ ∀ q b,
        q ∈ drop (length (Locals.dataQueries l))
              (drop (length (data_queries s)) (data_queries s')) →
        b ∈ optionsBindings (DataQuery.options q) →
        Event.queryId b = None.
Proof.
  intros Hv HN Hold Hempty Hsnap. destruct versions as [|v vs].
  - exists l, s. split; [reflexivity|]. intros q b Hq.
    rewrite drop_all, drop_nil in Hq. by apply elem_of_nil in Hq.
  - destruct (Hv v) as (k & Hk & Hin); [left|].
    destruct (findById_is_Some AppVersion.id k (app_versions s) Hin)
      as [r Hr].
    destruct (associateVersion_spec dataSourcesService envs sources dsos l s
                v k r Hk Hr)
      as (l1 & s1 & dsm & Hstep & Havm & _ & Hdqm & Hdq & _ & _ & _ & _
          & Hnext & Hver & _ & _ & _ & Hq).
    pose proof (findById_Some _ _ _ _ Hr) as [_ Hrk].
    assert (Hvids : map AppVersion.id (app_versions s1)
                    = map AppVersion.id (app_versions s)).
    { rewrite Hver. by apply updateWhereId_same_id. }
    assert (Hv1 : ∀ v', v' ∈ vs →
              ∃ k', Locals.appVersionMapping l1 !! VersionParams.id v'
                    = Some k'
                    ∧ k' ∈ map AppVersion.id (app_versions s1)).
    { intros v' Hv'. destruct (Hv v') as (k' & Hk' & Hin'); [by right|].
      exists k'. by rewrite Havm, Hvids. }
    rewrite Hempty in Hdqm.
    set (n := nextId s + length envs
              + length (List.filter (λ source, negb (skipped v source))
                          sources)
              + (if length dsos =? 0 then length sources else 0)
              + length dsos) in *.
    set (rows := map (remappedQuery (Locals.dataQueryMapping l1))
                   (newDataQueries dsm n (Locals.dataQueries l))) in *.
    assert (Hs1 : data_queries s1 = data_queries s ++ rows).
    { rewrite Hq. f_equal.
      apply (remapRow_fresh _ _ _ (nextId s) Hold).
      intros k'. rewrite newDataQueries_ids. intros Hk'.
      apply list_elem_of_In, in_seq in Hk'. lia. }
    assert (Hold1 : ∀ q, q ∈ data_queries s1 → DataQuery.id q < nextId s1).
    { intros q Hq'. rewrite Hs1 in Hq'.
      apply elem_of_app in Hq' as [Hq'|Hq'].
      - apply Hold in Hq'. lia.
      - assert (DataQuery.id q ∈ map DataQuery.id rows) as Hid
          by (apply list_elem_of_In, in_map, list_elem_of_In, Hq').
        unfold rows in Hid. rewrite remappedQuery_ids, newDataQueries_ids in Hid.
        apply list_elem_of_In, in_seq in Hid. lia. }
    destruct (associateVersions_rewritten envs sources dsos vs l1 s1 N)
      as (l' & s2 & Hrest & Hlater); try done.
    { lia. }
    { intros x Hx. rewrite Hdqm in Hx.
      apply newDataQueryMapping_keys in Hx as [Hx|Hx].
      - rewrite lookup_empty in Hx. by destruct Hx.
      - apply elem_of_map_iff in Hx as (q & Hq' & <-). by apply Hsnap. }
    { intros q Hq'. rewrite Hdq in Hq'.
      apply elem_of_map_iff in Hq' as (q0 & Hq0' & <-). simpl.
      by apply Hsnap. }
    { intros q b k' Hq' Hb' Hk'. rewrite Hdq in Hq'.
      apply elem_of_map_iff in Hq' as (q0 & Hq0' & <-). simpl in Hb'.
      rewrite optionsBindings_replace in Hb'.
      apply elem_of_map_iff in Hb' as (b0 & _ & <-).
      apply replaceEventQueryId_range in Hk' as (x & _ & Hx).
      rewrite Hdqm in Hx.
      apply newDataQueryMapping_range in Hx as [Hx|Hx];
        [by rewrite lookup_empty in Hx | lia]. }
    destruct (associateVersions_tables dataSourcesService envs sources dsos
                vs l1 s1 Hv1)
      as (l'' & s'' & _ & _ & _ & Hrest' & _ & _ & _ & _ & _ & _ & _ & _ & _
          & _ & Q2 & _).
    rewrite Hrest in Hrest'. injection Hrest' as <- <-.
    destruct (Q2 Hold1) as [Q2' _].
    exists l', s2. cbn [forEach]. rewrite Hstep. split; [exact Hrest|].
    intros q b Hq' Hb'.
    rewrite <- (take_drop (length (data_queries s1)) (data_queries s2)) in Hq'.
    rewrite Q2' in Hq'. rewrite Hs1 in Hq' at 1.
    rewrite <- app_assoc, drop_app_length in Hq'.
    assert (Hlen : length rows = length (Locals.dataQueries l)).
    { unfold rows, newDataQueries. by rewrite length_map, length_imap. }
    rewrite <- Hlen, drop_app_length in Hq'.
    by apply (Hlater q b).
Qed.

Lemma buildImportedAppAssociations_later_queries importedApp o s :
  (∀ q, q ∈ data_queries s → DataQuery.id q < nextId s) →
  (∀ q, q ∈ default [] (AppParams.dataQueries o) →
        QueryParams.id q < nextId s) →
  ∃ s',
    buildImportedAppAssociations dataSourcesService importedApp o s = inr s'
    ∧ ∀ q b,
        q ∈ drop (length (default [] (AppParams.dataQueries o)))
              (createdRows (data_queries s) (data_queries s')) →
        b ∈ optionsBindings (DataQuery.options q) →
        Event.queryId b = None.
Proof.
  intros Hold Hsnap. unfold buildImportedAppAssociations.
  rewrite createVersion_fold. cbn zeta.
  set (versions := default [] (AppParams.appVersions o)).
  set (w := idsPerVersion (default [] (AppParams.appEnvironments o))).
  match goal with
  | |- context [forEach ?f (?l, ?s1) versions] =>
      destruct (associateVersions_later
                  (default [] (AppParams.appEnvironments o))
                  (default [] (AppParams.dataSources o))
                  (default [] (AppParams.dataSourceOptions o)) versions l s1
                  (nextId s))
        as (l' & s2 & Hrun & Hlater)
  end; try done.
  { intros v Hv. simpl.
    destruct (versionMapping_lookup ∅ (nextId s) w versions
                (VersionParams.id v)) as (i & Hi & Hl).
    { apply list_elem_of_In, in_map, list_elem_of_In, Hv. }
    exists (nextId s + w * i). split; [exact Hl|].
    rewrite map_app. apply elem_of_app. right. by apply newVersions_elem. }
  { simpl. lia. }
  { simpl. intros q Hq. apply Hold in Hq. lia. }
  rewrite Hrun. eexists. split; [reflexivity|].
  pose proof (setEditingVersionAsLatestVersion_spec
                (Locals.appVersionMapping l') versions s2) as HE.
  cbn zeta in HE. destruct HE as (_ & _ & _ & _ & F5 & _).
  rewrite F5. unfold createdRows. exact Hlater.
Qed.

(** X15: the options of a snapshot query are one object, shared by the
    queries created from it for every version and rewritten in place each
    time.  So, when no id of a snapshot query is an id the import creates,
    the queries created for the second and every later version have no
    query id left in any event binding of their options. *)
Theorem later_versions_lose_query_bindings user o s :
  (∀ a, a ∈ apps s → App.id a < nextId s) →
  (∀ q, q ∈ data_queries s → DataQuery.id q < nextId s) →
  (∀ q, q ∈ default [] (AppParams.dataQueries o) →
        QueryParams.id q < nextId s) →
  ∃ app s',
    import dataSourcesService user (JsObject o) s = (inr app, s')
    ∧ ∀ q b,
        q ∈ drop (length (default [] (AppParams.dataQueries o)))
              (createdRows (data_queries s) (data_queries s')) →
        b ∈ optionsBindings (DataQuery.options q) →
        Event.queryId b = None.
Proof.
  intros Hwf Hold Hsnap.
  destruct (import_object_tables dataSourcesService user o s Hwf)
    as (app & s' & s1 & grants & Hi & Hb & _ & _ & _ & _ & _ & _ & _ & Hq & _).
  match type of Hb with
  | buildImportedAppAssociations _ ?a _ ?st = _ =>
      destruct (buildImportedAppAssociations_later_queries a o st)
        as (s1' & Hb' & Hlater)
  end.
  { simpl. intros q Hin. apply Hold in Hin. lia. }
  { simpl. intros q Hin. apply Hsnap in Hin. lia. }
  rewrite Hb in Hb'. injection Hb' as <-. simpl in Hlater.
  exists app, s'. split; [exact Hi|]. by rewrite Hq.
Qed.

End SharedOptions.

(** ** [setEditingVersionAsLatestVersion] *)

(** X16: marking the last version as the latest touches one timestamp.
    With no versions nothing is done.  Otherwise, the mapping having an
    entry for the snapshot's last version, no table but the versions is
    changed and no id is handed out; every version row keeps its position
    and all its columns but [updatedAt]; and a row is changed only if its id
    is the new id of the snapshot's last version, its [updatedAt] becoming
    the time of the call. *)
Theorem setEditingVersionAsLatestVersion_frame avm versions s :
  (∀ v, last versions = Some v → is_Some (avm !! VersionParams.id v)) →
  (versions = [] → setEditingVersionAsLatestVersion avm versions s = s)
  ∧ (let s' := setEditingVersionAsLatestVersion avm versions s in
     apps s' = apps s
     ∧ app_environments s' = app_environments s
     ∧ data_sources s' = data_sources s
     ∧ data_source_options s' = data_source_options s
     ∧ data_queries s' = data_queries s
     ∧ group_permissions s' = group_permissions s
     ∧ app_group_permissions s' = app_group_permissions s
     ∧ nextId s' = nextId s
     ∧ length (app_versions s') = length (app_versions s)
     ∧ ∀ i row, app_versions s !! i = Some row →
         ∃ row', app_versions s' !! i = Some row'
           ∧ versionKey row' = versionKey row
           ∧ AppVersion.definition row' = AppVersion.definition row
           ∧ AppVersion.createdAt row' = AppVersion.createdAt row
           ∧ (row' ≠ row →
              AppVersion.updatedAt row' = clock s
              ∧ ∃ v, last versions = Some v
                     ∧ avm !! VersionParams.id v = Some (AppVersion.id row))).
Proof.
  intros Hmapped. split; [by intros ->|]. cbn zeta.
  unfold setEditingVersionAsLatestVersion.
  destruct (last versions) as [v|] eqn:Hlast.
  2: { repeat (split; [reflexivity|]). intros i row Hi. exists row.
       do 4 (split; [done|]). done. }
  destruct (Hmapped v eq_refl) as [k Hk]. rewrite Hk. simpl.
  repeat (split; [reflexivity|]).
  split; [unfold updateWhereId; by rewrite length_map|].
  intros i row Hi. unfold updateWhereId. rewrite lookup_map, Hi. simpl.
  eexists. split; [reflexivity|].
  destruct (AppVersion.id row =? k) eqn:E.
  - apply Nat.eqb_eq in E. do 3 (split; [reflexivity|]).
    intros _. split; [reflexivity|]. exists v. by rewrite E.
  - do 3 (split; [reflexivity|]). done.
Qed.

Lemma setEditingVersionAsLatestVersion_frame_witness :
  data_queries
    (setEditingVersionAsLatestVersion {[1 := 3]}
       [VersionParams.mk 1 (Some "v2") None] twoVersionStore)
  = data_queries twoVersionStore
  ∧ length
      (app_versions
         (setEditingVersionAsLatestVersion {[1 := 3]}
            [VersionParams.mk 1 (Some "v2") None] twoVersionStore))
    = 2.
Proof.
  destruct (setEditingVersionAsLatestVersion_frame {[1 := 3]}
              [VersionParams.mk 1 (Some "v2") None] twoVersionStore)
    as (_ & H).
  { intros v [= <-]. simpl. rewrite lookup_singleton_eq. eauto. }
  cbn zeta in H. destruct H as (_ & _ & _ & _ & Hq & _ & _ & _ & Hlen & _).
  split; [exact Hq|exact Hlen].
Defined.

Lemma imported_rows_name_imported_versions_witness :
  ∃ app s',
    import plainOptions (User.mk 3 10) (JsObject legacySnapshot)
      twoVersionStore = (inr app, s')
    ∧ ∀ d, d ∈ createdRows (data_sources twoVersionStore) (data_sources s') →
        ∃ row,
          row ∈ createdRows (app_versions twoVersionStore) (app_versions s')
          ∧ DataSource.appVersionId d = Some (AppVersion.id row).
Proof.
  destruct (imported_rows_name_imported_versions plainOptions (User.mk 3 10)
              legacySnapshot twoVersionStore
              (fresh_apps _ freshIds_twoVersionStore))
    as (app & s' & Hi & Hd & _).
  exists app, s'. auto.
Defined.

Lemma later_versions_lose_query_bindings_witness :
  ∃ app s',
    import plainOptions (User.mk 3 10) (JsObject twoVersionSnapshot)
      twoVersionStore = (inr app, s')
    ∧ ∀ q b,
        q ∈ drop 1 (createdRows (data_queries twoVersionStore)
                      (data_queries s')) →
        b ∈ optionsBindings (DataQuery.options q) →
        Event.queryId b = None.
Proof.
  destruct (later_versions_lose_query_bindings plainOptions (User.mk 3 10)
              twoVersionSnapshot twoVersionStore
              (fresh_apps _ freshIds_twoVersionStore))
    as (app & s' & Hi & Hq).
  { intros q Hq. apply list_elem_of_singleton in Hq as ->. simpl. lia. }
  { intros q Hq. apply list_elem_of_singleton in Hq as ->. simpl. lia. }
  exists app, s'. auto.
Defined.

(** ** The definitions of the imported versions *)

Section ImportedDefinitions.

Variable dataSourcesService : DataSourcesService.









End ImportedDefinitions.

